(** * Minimax with alpha-beta pruning of [baby_driver.py]

    Shallow embedding of [minimax] and [play_game] of [src/baby_driver.py].

    The python-chess [Board] is modelled by its move stack (most recent move
    first): [push], [pop] and [peek] act on that stack, and the library's
    queries ([legal_moves], [result], [turn], [is_game_over]) are functions
    of it, gathered in the record [Game].  [minimax] mutates the board it is
    given, so it is written in a state monad over the board that also carries
    Python exceptions; an exception keeps the board as it was when raised.

    Scores are Python floats whose only non-integral values here are
    [float("inf")] and [float("-inf")]; evaluators return integers, so a
    score is an integer extended with both infinities ([ext]).

    [random.shuffle] is modelled by its algorithm (Fisher-Yates swapping
    from the end of the list), fed by an oracle [rnd] giving the random
    number drawn for each index at each node.  Inside one search every node
    has its own move stack, so an oracle indexed by the stack covers every
    outcome of the random source.

    The second part embeds the evaluation functions of [src/eval_funcs.py]
    that compute with integers or with a few exact float operations, and the
    bookkeeping of [main] and [tally_score]. *)

From Stdlib Require Import List ZArith Bool Lia RelationClasses Morphisms.
From Stdlib Require Import Orders OrdersTac Permutation Ascii PrimFloat.
From Stdlib Require Uint63.
Import ListNotations.

(** ** Scores: integers extended with [float("inf")] and [float("-inf")] *)

Inductive ext : Type :=
| NegInf
| Fin (z : Z)
| PosInf.

Definition ext_ltb (a b : ext) : bool :=
  match a, b with
  | NegInf, NegInf => false
  | NegInf, _ => true
  | Fin _, NegInf => false
  | Fin x, Fin y => Z.ltb x y
  | Fin _, PosInf => true
  | PosInf, _ => false
  end.

(** [a <= b] *)
Definition ext_leb (a b : ext) : bool := negb (ext_ltb b a).

(** [a == b] *)
Definition ext_eqb (a b : ext) : bool :=
  match a, b with
  | NegInf, NegInf => true
  | Fin x, Fin y => Z.eqb x y
  | PosInf, PosInf => true
  | _, _ => false
  end.

(** Python's [max(a, b)] keeps [a] unless [b > a]. *)
Definition py_max (a b : ext) : ext := if ext_ltb a b then b else a.

(** Python's [min(a, b)] keeps [a] unless [b < a]. *)
Definition py_min (a b : ext) : ext := if ext_ltb b a then b else a.

(** ** The python-chess interface used by the driver *)

(** [board.result()]: ["1-0"], ["0-1"], ["1/2-1/2"] or ["*"]. *)
Inductive outcome : Type :=
| WhiteWins
| BlackWins
| Drawn
| Ongoing.

Inductive color : Type :=
| White
| Black.

(** Python exceptions the modelled code can raise.  [OutOfFuel] is not a
    Python exception: it bounds the [while] loop of [play_game]. *)
Inductive exn : Type :=
| IndexError      (* [peek]/[pop] on an empty move stack *)
| AttributeError  (* [board.push] of something that is not a Move *)
| AssertionError  (* [board.push] of a move whose from-square is empty *)
| OutOfFuel.

Record Game (Move : Type) : Type := {
  legal_moves : list Move -> list Move;
  result : list Move -> outcome;
  turn : list Move -> color;
  is_game_over : list Move -> bool
}.

Arguments legal_moves {Move} g _.
Arguments result {Move} g _.
Arguments turn {Move} g _.
Arguments is_game_over {Move} g _.

(** ** [random.shuffle] *)

Section Shuffle.
Context {A : Type}.

(** [x[i] = v] on a Python list (indices are in range where it is used). *)
Fixpoint list_set (l : list A) (i : nat) (v : A) : list A :=
  match l, i with
  | [], _ => []
  | _ :: t, O => v :: t
  | h :: t, S i' => h :: list_set t i' v
  end.

(** [x[i], x[j] = x[j], x[i]] *)
Definition swap (l : list A) (i j : nat) : list A :=
  match nth_error l i, nth_error l j with
  | Some xi, Some xj => list_set (list_set l i xj) j xi
  | _, _ => l
  end.

(** [for i in reversed(range(1, k + 1)): j = randbelow(i + 1); swap i j] *)
Fixpoint shuffle_loop (draw : nat -> nat) (k : nat) (l : list A) : list A :=
  match k with
  | O => l
  | S k' => shuffle_loop draw k' (swap l k (Nat.modulo (draw k) (S k)))
  end.

(** [random.shuffle(x)], [draw i] being the number drawn for index [i]. *)
Definition shuffle (draw : nat -> nat) (l : list A) : list A :=
  shuffle_loop draw (length l - 1) l.

End Shuffle.

(** ** State and exception monad over the board *)

Inductive res (A : Type) : Type :=
| Ok (a : A)
| Err (e : exn).

Arguments Ok {A} a.
Arguments Err {A} e.

Section Monad.
Context {Move : Type}.

Definition board := list Move.

Definition ST (A : Type) : Type := board -> res A * board.

Definition ret {A} (a : A) : ST A := fun b => (Ok a, b).

Definition bind {A B} (m : ST A) (k : A -> ST B) : ST B :=
  fun b => match m b with
           | (Ok a, b') => k a b'
           | (Err e, b') => (Err e, b')
           end.

Definition raise {A} (e : exn) : ST A := fun b => (Err e, b).

Definition get : ST board := fun b => (Ok b, b).

(** [board.push(m)] for a move [m] of [board.legal_moves], the only moves
    [minimax] pushes: python-chess's assertion that the moved piece stands
    on the move's from-square always holds for them.  The driver, which
    pushes whatever the search returns, checks it ([push_result]). *)
Definition push (m : Move) : ST unit := fun b => (Ok tt, m :: b).

(** [board.pop()] *)
Definition pop : ST Move :=
  fun b => match b with
           | [] => (Err IndexError, b)
           | m :: b' => (Ok m, b')
           end.

(** [board.peek()] *)
Definition peek : ST Move :=
  fun b => match b with
           | [] => (Err IndexError, b)
           | m :: _ => (Ok m, b)
           end.

End Monad.

Notation "x <- m ;; k" := (bind m (fun x => k))
  (at level 61, m at next level, right associativity).
Notation "m ;;; k" := (bind m (fun _ => k))
  (at level 61, right associativity).

(** ** [minimax] *)

Section Minimax.
Context {Move : Type} (G : Game Move).

(** Second component of the pair [minimax] returns: [None], a Move, or the
    bound method [board.peek] itself (returned uncalled at line 30). *)
Inductive mvres : Type :=
| MNone
| MMove (m : Move)
| MPeekAccessor.

Definition evaluator := @board Move -> Z.

(** Lines 26-31, the [depth == 0] case.  [-eval_func(board)] is evaluated
    before [board.peek()]. *)
Definition leaf (eval_func : evaluator) : ST (ext * mvres) :=
  b <- get ;;
  match result G b with
  | WhiteWins => m <- peek ;; ret (PosInf, MMove m)
  | BlackWins => ret (NegInf, MPeekAccessor)
  | _ => let s := Fin (- eval_func b) in m <- peek ;; ret (s, MMove m)
  end.

(** The [for] loop of the maximizing branch (lines 48-66); [child alpha beta]
    is the recursive call of line 54.  [chess.Move.from_uci(str(x))] is [x]. *)
Fixpoint max_loop (child : ext -> ext -> ST (ext * mvres)) (beta : ext)
    (ms : list Move) (alpha best_score : ext) (best_move : mvres)
    : ST (ext * mvres) :=
  match ms with
  | [] => ret (best_score, best_move)
  | x :: rest =>
      push x ;;;
      pair <- child alpha beta ;;
      let best_score := py_max best_score (fst pair) in
      best_move <- (if ext_eqb (fst pair) best_score
                    then m <- peek ;; ret (MMove m)
                    else ret best_move) ;;
      pop ;;;
      let alpha := py_max alpha best_score in
      if ext_leb beta alpha then ret (best_score, best_move)
      else max_loop child beta rest alpha best_score best_move
  end.

(** The [for] loop of the minimizing branch (lines 75-93). *)
Fixpoint min_loop (child : ext -> ext -> ST (ext * mvres)) (alpha : ext)
    (ms : list Move) (beta best_score : ext) (best_move : mvres)
    : ST (ext * mvres) :=
  match ms with
  | [] => ret (best_score, best_move)
  | x :: rest =>
      push x ;;;
      pair <- child alpha beta ;;
      let best_score := py_min best_score (fst pair) in
      best_move <- (if ext_eqb (fst pair) best_score
                    then m <- peek ;; ret (MMove m)
                    else ret best_move) ;;
      pop ;;;
      let beta := py_min beta best_score in
      if ext_leb beta alpha then ret (best_score, best_move)
      else min_loop child alpha rest beta best_score best_move
  end.

Section Search.
(** The random numbers drawn by [random.shuffle] at each node. *)
Variable rnd : @board Move -> nat -> nat.

(** [minimax(depth, board, alpha, beta, is_maximizing, eval_func)]; the
    board is the state. *)
Fixpoint minimax (depth : nat) (alpha beta : ext) (is_maximizing : bool)
    (eval_func : evaluator) : ST (ext * mvres) :=
  match depth with
  | O => leaf eval_func
  | S d =>
      b <- get ;;
      let possible_moves := shuffle (rnd b) (legal_moves G b) in
      let child := fun a bt => minimax d a bt (negb is_maximizing) eval_func in
      if is_maximizing
      then max_loop child beta possible_moves alpha NegInf MNone
      else min_loop child alpha possible_moves beta PosInf MNone
  end.

End Search.
End Minimax.

Arguments MNone {Move}.
Arguments MPeekAccessor {Move}.

(** ** Reference searches stated by the spec *)

Section Reference.
Context {Move : Type} (G : Game Move).
Variable rnd : @board Move -> nat -> nat.

(** Exhaustive minimax of the spec: the same search with the cutoff
    [if beta <= alpha: return] removed, so every move is examined. *)
Fixpoint max_loop_exh (child : ST (ext * mvres (Move := Move)))
    (ms : list Move) (best_score : ext) (best_move : mvres)
    : ST (ext * mvres) :=
  match ms with
  | [] => ret (best_score, best_move)
  | x :: rest =>
      push x ;;;
      pair <- child ;;
      let best_score := py_max best_score (fst pair) in
      best_move <- (if ext_eqb (fst pair) best_score
                    then m <- peek ;; ret (MMove m)
                    else ret best_move) ;;
      pop ;;;
      max_loop_exh child rest best_score best_move
  end.

Fixpoint min_loop_exh (child : ST (ext * mvres (Move := Move)))
    (ms : list Move) (best_score : ext) (best_move : mvres)
    : ST (ext * mvres) :=
  match ms with
  | [] => ret (best_score, best_move)
  | x :: rest =>
      push x ;;;
      pair <- child ;;
      let best_score := py_min best_score (fst pair) in
      best_move <- (if ext_eqb (fst pair) best_score
                    then m <- peek ;; ret (MMove m)
                    else ret best_move) ;;
      pop ;;;
      min_loop_exh child rest best_score best_move
  end.

Fixpoint minimax_exhaustive (depth : nat) (is_maximizing : bool)
    (eval_func : evaluator) : ST (ext * mvres) :=
  match depth with
  | O => leaf G eval_func
  | S d =>
      b <- get ;;
      let possible_moves := shuffle (rnd b) (legal_moves G b) in
      let child := minimax_exhaustive d (negb is_maximizing) eval_func in
      if is_maximizing
      then max_loop_exh child possible_moves NegInf MNone
      else min_loop_exh child possible_moves PosInf MNone
  end.

(** The line a search follows when it examines only the first move (in
    shuffled order) of every node: the result the spec's "one move per node"
    describes. *)
Fixpoint first_move_line (depth : nat) (is_maximizing : bool)
    (eval_func : evaluator) (b : board) : res (ext * mvres) :=
  match depth with
  | O => fst (leaf G eval_func b)
  | S d =>
      match shuffle (rnd b) (legal_moves G b) with
      | [] => Ok (if is_maximizing then NegInf else PosInf, MNone)
      | x :: _ =>
          match first_move_line d (negb is_maximizing) eval_func (x :: b) with
          | Ok (s, _) => Ok (s, MMove x)
          | Err e => Err e
          end
      end
  end.

(** The moves a maximizing node examines, in order, with the score the
    recursive call returns for each: iteration stops after the move whose
    score lifts the running alpha to [beta] or above. *)
Fixpoint max_trace (child : ext -> ext -> ST (ext * mvres (Move := Move)))
    (beta : ext) (ms : list Move) (alpha best_score : ext) (b : board)
    : list (Move * ext) :=
  match ms with
  | [] => []
  | x :: rest =>
      match fst (child alpha beta (x :: b)) with
      | Ok (s, _) =>
          let best_score := py_max best_score s in
          let alpha := py_max alpha best_score in
          (x, s) :: (if ext_leb beta alpha then []
                     else max_trace child beta rest alpha best_score b)
      | Err _ => []
      end
  end.

(** The same for a minimizing node. *)
Fixpoint min_trace (child : ext -> ext -> ST (ext * mvres (Move := Move)))
    (alpha : ext) (ms : list Move) (beta best_score : ext) (b : board)
    : list (Move * ext) :=
  match ms with
  | [] => []
  | x :: rest =>
      match fst (child alpha beta (x :: b)) with
      | Ok (s, _) =>
          let best_score := py_min best_score s in
          let beta := py_min beta best_score in
          (x, s) :: (if ext_leb beta alpha then []
                     else min_trace child alpha rest beta best_score b)
      | Err _ => []
      end
  end.

End Reference.

(** ** [play_game] *)

Section Driver.
Context {Move : Type} (G : Game Move).

(** Whether a piece stands on the from-square of a move:
    [board.piece_type_at(move.from_square) is not None]. *)
Variable from_square_occupied : @board Move -> Move -> bool.

(** [board.push(best_pair[1])]: only a Move can be pushed
    ([AttributeError] otherwise), and python-chess asserts that a piece
    stands on its from-square ([assert piece_type is not None], an
    [AssertionError]).  Either exception ends [play_game]. *)
Definition push_result (mv : mvres (Move := Move)) : ST unit :=
  match mv with
  | MMove m =>
      b <- get ;;
      if from_square_occupied b m then push m else raise AssertionError
  | _ => raise AttributeError
  end.

Variables (white_eval : evaluator (Move := Move)) (white_depth : nat)
          (black_eval : evaluator (Move := Move)) (black_depth : nat).

(** The random draws of the [k]-th search of the game. *)
Variable rnd : nat -> @board Move -> nat -> nat.

(** The [while not board.is_game_over()] loop (lines 105-120), the [k]-th
    iteration next; [fuel] bounds the number of iterations. *)
Fixpoint play_loop (fuel k : nat) : ST outcome :=
  b <- get ;;
  if is_game_over G b then ret (result G b)
  else match fuel with
       | O => raise OutOfFuel
       | S fuel' =>
           match turn G b with
           | White =>
               best_pair <- minimax G (rnd k) white_depth PosInf NegInf true
                                    white_eval ;;
               push_result (snd best_pair) ;;;
               play_loop fuel' (S k)
           | Black =>
               best_pair <- minimax G (rnd k) black_depth NegInf PosInf false
                                    black_eval ;;
               push_result (snd best_pair) ;;;
               play_loop fuel' (S k)
           end
       end.

(** [play_game(white_eval, white_depth, black_eval, black_depth)] from
    [chess.Board()], whose move stack is empty. *)
Definition play_game (fuel : nat) : res outcome := fst (play_loop fuel 0 []).

End Driver.

(** ** A small game used to evaluate the search on concrete inputs

    Moves are numbers; two moves, [1] and [2], are legal until two have been
    played; the game is won by White after [1, 1], by Black after [2, 2],
    and the evaluation of a position is the sum of the moves played. *)

Definition toy : Game nat := {|
  legal_moves := fun b => if Nat.ltb (length b) 2 then [1; 2] else [];
  result := fun b => match b with
                     | [1; 1] => WhiteWins
                     | [2; 2] => BlackWins
                     | [_; _] => Drawn
                     | _ => Ongoing
                     end;
  turn := fun b => if Nat.even (length b) then White else Black;
  is_game_over := fun b => Nat.leb 2 (length b)
|}.

Definition toy_eval : @board nat -> Z := fun b => Z.of_nat (list_sum b).

(** Occupancy of from-squares as in chess right after a move: the square a
    move left is empty, so the move just played cannot be played again;
    every other move of [toy] starts from an occupied square. *)
Definition toy_from_occupied : @board nat -> nat -> bool :=
  fun b m => match b with
             | m' :: _ => negb (Nat.eqb m m')
             | [] => true
             end.

(** Draws that make [random.shuffle] swap every index with itself. *)
Definition fixed_order : @board nat -> nat -> nat := fun _ i => i.

(** A root position that is already a completed game won by White, with an
    empty move stack (a board set up from a position, not from moves). *)
Definition mated_root : Game nat := {|
  legal_moves := fun _ => [];
  result := fun _ => WhiteWins;
  turn := fun _ => Black;
  is_game_over := fun _ => true
|}.

Section PythonValues.
Local Open Scope Z_scope.

(** ** [tally_score] (lines 155-167) *)

(** The strings [board.result()] returns, as lists of characters. *)
Definition result_str (o : outcome) : list ascii :=
  match o with
  | WhiteWins => ["1"; "-"; "0"]
  | BlackWins => ["0"; "-"; "1"]
  | Drawn => ["1"; "/"; "2"; "-"; "1"; "/"; "2"]
  | Ongoing => ["*"]
  end%char.

(** [s.split(sep)]: the pieces between the occurrences of [sep]. *)
Fixpoint py_split (sep : ascii) (s : list ascii) : list (list ascii) :=
  match s with
  | [] => [[]]
  | c :: rest =>
      let parts := py_split sep rest in
      if Ascii.eqb c sep then [] :: parts
      else match parts with
           | p :: ps => (c :: p) :: ps
           | [] => [[c]]
           end
  end.

Definition digit_value (c : ascii) : option Z :=
  let n := nat_of_ascii c in
  if (48 <=? n)%nat && (n <=? 57)%nat then Some (Z.of_nat (n - 48)%nat) else None.

Fixpoint digits_value (acc : Z) (s : list ascii) : option Z :=
  match s with
  | [] => Some acc
  | c :: rest =>
      match digit_value c with
      | Some d => digits_value (10 * acc + d) rest
      | None => None
      end
  end.

(** [int(s, 10)], [None] standing for the [ValueError] it raises.  A
    non-empty run of decimal digits converts; a string holding any other
    character (['/'], ['*']) raises.  Python also accepts a sign,
    underscores between digits and surrounding whitespace, which no string
    [board.result()] returns contains. *)
Definition py_int10 (s : list ascii) : option Z :=
  match s with
  | [] => None
  | _ => digits_value 0 s
  end.

(** A Python number of [tally_score]: an [int], or a [float] that is a
    multiple of [0.5], kept as twice its value ([PyFloat2 h] is [h / 2]).
    Sums of such floats below [2 ^ 52] are exact in binary64. *)
Inductive pynum : Type :=
| PyInt (z : Z)
| PyFloat2 (h : Z).

(** [a + b]; an [int] meeting a [float] is converted to [float]. *)
Definition py_add (a b : pynum) : pynum :=
  match a, b with
  | PyInt x, PyInt y => PyInt (x + y)
  | PyInt x, PyFloat2 h => PyFloat2 (2 * x + h)
  | PyFloat2 h, PyInt y => PyFloat2 (h + 2 * y)
  | PyFloat2 h, PyFloat2 k => PyFloat2 (h + k)
  end.

(** Decimal digits of [z >= 0] in front of [acc]; [fuel] bounds their
    number. *)
Fixpoint z_digits (fuel : nat) (z : Z) (acc : list ascii) : list ascii :=
  match fuel with
  | O => acc
  | S f =>
      let acc := ascii_of_nat (48 + Z.to_nat (z mod 10))%nat :: acc in
      if z <? 10 then acc else z_digits f (z / 10) acc
  end.

(** [str(n)] for an [int]. *)
Definition str_int (z : Z) : list ascii :=
  if z <? 0 then "-"%char :: z_digits (S (Z.to_nat (Z.log2 (- z)))) (- z) []
  else z_digits (S (Z.to_nat (Z.log2 z))) z [].

(** [str(x)] for a [float] [x = h / 2] with [|x| < 10 ^ 16], which prints
    as ["n.0"] or ["n.5"]. *)
Definition str_float2 (h : Z) : list ascii :=
  (if h <? 0 then ["-"%char] else []) ++ str_int (Z.abs h / 2) ++
  (if Z.odd h then ["."; "5"] else ["."; "0"])%char.

Definition py_str (x : pynum) : list ascii :=
  match x with
  | PyInt z => str_int z
  | PyFloat2 h => str_float2 h
  end.

(** The [try]/[except] of lines 159-164 for one result: both [int] calls
    succeed, or any exception ([ValueError], or [IndexError] on a string
    without ['-']) gives half a point to each side. *)
Definition game_points (r : list ascii) : pynum * pynum :=
  match py_split "-"%char r with
  | w :: rest =>
      match py_int10 w with
      | Some white_score =>
          match rest with
          | bl :: _ =>
              match py_int10 bl with
              | Some black_score => (PyInt white_score, PyInt black_score)
              | None => (PyFloat2 1, PyFloat2 1)
              end
          | [] => (PyFloat2 1, PyFloat2 1)
          end
      | None => (PyFloat2 1, PyFloat2 1)
      end
  | [] => (PyFloat2 1, PyFloat2 1)
  end.

(** [white_wins] and [black_wins] after the loop of lines 158-166. *)
Definition tally_points (results : list (list ascii)) : pynum * pynum :=
  fold_left (fun acc r =>
               let '(white_wins, black_wins) := acc in
               let '(white_score, black_score) := game_points r in
               (py_add white_wins white_score, py_add black_wins black_score))
            results (PyInt 0, PyInt 0).

(** [tally_score(results)] *)
Definition tally_score (results : list (list ascii)) : list ascii :=
  let '(white_wins, black_wins) := tally_points results in
  py_str white_wins ++ [" "; "-"; " "]%char ++ py_str black_wins.

(** Twice the value of a number. *)
Definition py_twice (x : pynum) : Z :=
  match x with
  | PyInt z => 2 * z
  | PyFloat2 h => h
  end.

(** ** The games [main] plays (lines 126-152) *)

Inductive eval_name : Type :=
| EvalCountpieces
| EvalWeightpieces
| ThoroughEval.

Definition depths : list nat := [2%nat; 4%nat; 6%nat].

Definition functs : list eval_name :=
  [EvalCountpieces; EvalWeightpieces; ThoroughEval].

(** [combos], built by the loops of lines 133-136. *)
Definition combos : list (nat * eval_name) :=
  flat_map (fun i => map (fun j => (nth i depths 0%nat, nth j functs EvalCountpieces))
                         (seq 0 3))
           (seq 0 3).

(** The [play_game] calls of lines 138-150 in order, each given by the
    indices in [combos] of White's and of Black's combination. *)
Definition main_games : list (nat * nat) :=
  let n := length combos in
  flat_map (fun k =>
              flat_map (fun l => map (fun _ => (k, Nat.modulo (k + l)%nat n)) (seq 0 2))
                       (seq 1 (n - 1)%nat))
           (seq 0 n).

(** * Evaluation functions of [eval_funcs.py]

    A board is seen through [board.piece_at]; the squares of
    [chess.SQUARES] are [0] (a1) to [63] (h8), rank by rank. *)

Inductive piece_type : Type :=
| Pawn
| Knight
| Bishop
| Rook
| Queen
| King.

Definition piece_type_eqb (s t : piece_type) : bool :=
  match s, t with
  | Pawn, Pawn | Knight, Knight | Bishop, Bishop
  | Rook, Rook | Queen, Queen | King, King => true
  | _, _ => false
  end.

(** A python-chess [Piece]; [piece_color] is [True] for White. *)
Record piece : Type := Piece {
  piece_type_of : piece_type;
  piece_color : bool
}.

(** [chess.piece_symbol] *)
Definition piece_symbol (t : piece_type) : ascii :=
  match t with
  | Pawn => "p"
  | Knight => "n"
  | Bishop => "b"
  | Rook => "r"
  | Queen => "q"
  | King => "k"
  end%char.

(** [str.upper] and [str.lower] on one ASCII character. *)
Definition ascii_upper (c : ascii) : ascii :=
  let n := nat_of_ascii c in
  if (97 <=? n)%nat && (n <=? 122)%nat then ascii_of_nat (n - 32)%nat else c.

Definition ascii_lower (c : ascii) : ascii :=
  let n := nat_of_ascii c in
  if (65 <=? n)%nat && (n <=? 90)%nat then ascii_of_nat (n + 32)%nat else c.

(** [Piece.symbol()]: upper case for White. *)
Definition symbol (p : piece) : ascii :=
  let s := piece_symbol (piece_type_of p) in
  if piece_color p then ascii_upper s else s.

(** [board.piece_at] on the squares of the board. *)
Definition position : Type := Z -> option piece.

(** [chess.SQUARES] *)
Definition SQUARES : list Z := map Z.of_nat (seq 0 64).

(** [piece_to_pts(piece)] (lines 27-43) *)
Definition piece_to_pts (p : piece) : Z :=
  let charcode := ascii_lower (symbol p) in
  if Ascii.eqb charcode "p"%char then 1
  else if Ascii.eqb charcode "b"%char then 3
  else if Ascii.eqb charcode "n"%char then 3
  else if Ascii.eqb charcode "r"%char then 5
  else if Ascii.eqb charcode "q"%char then 9
  else if Ascii.eqb charcode "k"%char then 1
  else 0.

(** [eval_countpieces(board)] (lines 50-69) *)
Definition eval_countpieces (board : position) : Z :=
  fold_left (fun score square =>
               match board square with
               | None => score
               | Some piece =>
                   let piece_pts := piece_to_pts piece in
                   if piece_color piece then score + piece_pts
                   else score - piece_pts
               end)
            SQUARES 0.

(** The bishop counts of the loop of lines 164-171. *)
Definition count_bishops (board : position) : Z * Z :=
  fold_left (fun '(white_bishops, black_bishops) square =>
               match board square with
               | None => (white_bishops, black_bishops)
               | Some piece =>
                   if Ascii.eqb (ascii_lower (symbol piece)) "b"%char
                      && piece_color piece
                   then (white_bishops + 1, black_bishops)
                   else if Ascii.eqb (ascii_lower (symbol piece)) "b"%char
                           && negb (piece_color piece)
                   then (white_bishops, black_bishops + 1)
                   else (white_bishops, black_bishops)
               end)
            SQUARES (0, 0).

(** [bishop_pair(board)] (lines 160-179) *)
Definition bishop_pair (board : position) : Z :=
  let points_per_pair := 1 in
  let '(white_bishops, black_bishops) := count_bishops board in
  if (white_bishops =? 2) && (black_bishops <? 2) then points_per_pair
  else if (black_bishops =? 2) && (2 <? white_bishops) then - points_per_pair
  else 0.

(** [chess.BB_A1], [chess.BB_H1], [chess.BB_A8], [chess.BB_H8] *)
Definition BB_A1 : Z := Z.shiftl 1 0.
Definition BB_H1 : Z := Z.shiftl 1 7.
Definition BB_A8 : Z := Z.shiftl 1 56.
Definition BB_H8 : Z := Z.shiftl 1 63.

(** [has_castled(board)] (lines 206-219) on [board.castling_rights], in
    binary64 arithmetic; [total] starts as the [int] [0], which the first
    subtraction or addition turns into [0.0]. *)
Definition has_castled (castling_rights : Z) : float :=
  let castling_points := 0.4%float in
  let total := 0%float in
  let total :=
    if negb (Z.land castling_rights BB_A1 =? 0)
       && negb (Z.land castling_rights BB_A8 =? 0)
    then (total - castling_points)%float
    else (total + castling_points)%float in
  let total :=
    if negb (Z.land castling_rights BB_H1 =? 0)
       && negb (Z.land castling_rights BB_H8 =? 0)
    then (total + castling_points)%float
    else (total - castling_points)%float in
  total.

(** [float(n)], exact for [|n| < 2 ^ 53]. *)
Definition float_of_Z (z : Z) : float :=
  if z <? 0 then (- of_uint63 (Uint63.of_Z (- z)))%float
  else of_uint63 (Uint63.of_Z z).

(** [square/8 == 7 or square/8 == 8] (line 149): [/] is Python 3's true
    division, so the quotient is a float. *)
Definition back_rank (square : Z) : bool :=
  let y := (float_of_Z square / 8)%float in
  ((y =? 7)%float || (y =? 8)%float)%bool.

(** The inner [for i in range(3)] loops of lines 140-146 and 151-156:
    [white] tells which colour's king is looked at; an exception raised by
    [board.piece_at] ends the loop ([except: break]). *)
Fixpoint protectors (piece_at : Z -> res (option piece)) (white : bool)
    (squares : list Z) (protection : Z) : Z :=
  match squares with
  | [] => protection
  | sq :: rest =>
      match piece_at sq with
      | Err _ => protection
      | Ok None => protectors piece_at white rest protection
      | Ok (Some p) =>
          if white then
            if piece_color p then protectors piece_at white rest (protection + 1)
            else protectors piece_at white rest protection
          else
            if negb (piece_color p)
            then protectors piece_at white rest (protection - 1)
            else protectors piece_at white rest protection
      end
  end.

(** The body of [protect_king(board)] (lines 129-157) with the back-rank
    test of line 149 as a parameter; [board.piece_at] may raise outside the
    board. *)
Definition protect_king_with (test : Z -> bool)
    (piece_at : Z -> res (option piece)) : res float :=
  let point_per_protector := 0.4%float in
  let step := fun (acc : res Z) (square : Z) =>
    match acc with
    | Err e => Err e
    | Ok protection =>
        match piece_at square with
        | Err e => Err e
        | Ok None => Ok protection
        | Ok (Some piece) =>
            if Ascii.eqb (ascii_lower (symbol piece)) "k"%char && piece_color piece
            then Ok (protectors piece_at true [square + 7; square + 8; square + 9]
                                protection)
            else if Ascii.eqb (ascii_lower (symbol piece)) "k"%char
                    && negb (piece_color piece)
            then
              let protection := if test square then protection - 3 else protection in
              Ok (protectors piece_at false [square - 7; square - 8; square - 9]
                             protection)
            else Ok protection
        end
    end in
  match fold_left step SQUARES (Ok 0) with
  | Ok protection => Ok (float_of_Z protection * point_per_protector)%float
  | Err e => Err e
  end.

(** [protect_king(board)] *)
Definition protect_king (piece_at : Z -> res (option piece)) : res float :=
  protect_king_with back_rank piece_at.

(** The position with every piece changed to the other colour. *)
Definition swap_colors (board : position) : position :=
  fun square => option_map (fun p => Piece (piece_type_of p) (negb (piece_color p)))
                           (board square).

(** The position seen from the other side: ranks reversed (square [s] goes
    to [s xor 56]) and colours swapped. *)
Definition mirror (board : position) : position :=
  fun square => swap_colors board (Z.lxor square 56).

(** The number of pieces of type [t] and colour [white] on the board. *)
Definition count_pieces (board : position) (t : piece_type) (white : bool) : Z :=
  Z.of_nat (length (filter (fun square =>
                              match board square with
                              | Some p => piece_type_eqb (piece_type_of p) t
                                          && Bool.eqb (piece_color p) white
                              | None => false
                              end) SQUARES)).

End PythonValues.

(** * Proofs *)

(** ** Scores *)

Ltac ext_crush :=
  unfold py_max, py_min, ext_leb in *;
  repeat match goal with x : ext |- _ => destruct x end;
  simpl in *;
  repeat match goal with
         | H : context [Z.ltb ?x ?y] |- _ => destruct (Z.ltb_spec x y)
         | |- context [Z.ltb ?x ?y] => destruct (Z.ltb_spec x y)
         | H : context [Z.eqb ?x ?y] |- _ => destruct (Z.eqb_spec x y)
         | |- context [Z.eqb ?x ?y] => destruct (Z.eqb_spec x y)
         end;
  simpl in *;
  repeat match goal with H : Fin _ = Fin _ |- _ => injection H as H end;
  subst;
  try discriminate; try reflexivity;
  try solve [exfalso; lia | f_equal; lia | intuition (try discriminate; lia)].

Lemma ext_eqb_refl (s : ext) : ext_eqb s s = true.
Proof. ext_crush. Qed.

Lemma py_max_neginf (s : ext) : py_max NegInf s = s.
Proof. ext_crush. Qed.

Lemma py_min_posinf (s : ext) : py_min PosInf s = s.
Proof. ext_crush. Qed.

Lemma leb_py_max_r (beta alpha s : ext) :
  ext_leb beta alpha = true -> ext_leb beta (py_max alpha s) = true.
Proof. intros; ext_crush. Qed.

Lemma leb_py_min_l (beta alpha s : ext) :
  ext_leb beta alpha = true -> ext_leb (py_min beta s) alpha = true.
Proof. intros; ext_crush. Qed.

(** The [==] test against the running maximum succeeds exactly when the new
    score is at least the old maximum. *)
Lemma py_max_update (bs r : ext) :
  (ext_eqb r (py_max bs r) = true /\ py_max bs r = r /\ ext_leb bs r = true)
  \/ (ext_eqb r (py_max bs r) = false /\ py_max bs r = bs /\ ext_ltb r bs = true).
Proof. ext_crush. Qed.

Lemma py_min_update (bs r : ext) :
  (ext_eqb r (py_min bs r) = true /\ py_min bs r = r /\ ext_leb r bs = true)
  \/ (ext_eqb r (py_min bs r) = false /\ py_min bs r = bs /\ ext_ltb bs r = true).
Proof. ext_crush. Qed.

Lemma ext_leb_refl (a : ext) : ext_leb a a = true.
Proof. ext_crush. Qed.

Lemma ext_leb_trans (a b c : ext) :
  ext_leb a b = true -> ext_leb b c = true -> ext_leb a c = true.
Proof. intros; ext_crush. Qed.

Lemma ext_lt_le_trans (a b c : ext) :
  ext_ltb a b = true -> ext_leb b c = true -> ext_ltb a c = true.
Proof. intros; ext_crush. Qed.

Lemma ext_le_lt_trans (a b c : ext) :
  ext_leb a b = true -> ext_ltb b c = true -> ext_ltb a c = true.
Proof. intros; ext_crush. Qed.

Lemma ext_ltb_neginf (a : ext) : ext_ltb a NegInf = false.
Proof. ext_crush. Qed.

Lemma ext_ltb_posinf (a : ext) : ext_ltb PosInf a = false.
Proof. ext_crush. Qed.

(** [ext] is totally ordered, which gives the [order] tactic. *)
Definition ext_lt (a b : ext) : Prop := ext_ltb a b = true.
Definition ext_le (a b : ext) : Prop := ext_ltb b a = false.

Module ExtOrd.
Definition t := ext.
Definition eq := @eq ext.
Definition lt := ext_lt.
Definition le := ext_le.

#[global] Instance eq_equiv : Equivalence eq := _.

#[global] Instance lt_strorder : StrictOrder lt.
Proof.
  unfold lt, ext_lt. split.
  - intros x H; ext_crush.
  - intros x y z H1 H2; ext_crush.
Qed.

#[global] Instance lt_compat : Proper (eq ==> eq ==> iff) lt.
Proof. intros ? ? -> ? ? ->; reflexivity. Qed.

Lemma le_lteq : forall x y, le x y <-> lt x y \/ eq x y.
Proof.
  unfold le, lt, ext_le, ext_lt, eq. intros x y; split.
  - intros H. destruct (ext_ltb x y) eqn:E; [left; reflexivity|right].
    ext_crush.
  - intros [H | ->]; ext_crush.
Qed.

Lemma lt_total : forall x y, lt x y \/ eq x y \/ lt y x.
Proof.
  unfold lt, ext_lt, eq. intros x y.
  destruct (ext_ltb x y) eqn:E1; [left; reflexivity|].
  destruct (ext_ltb y x) eqn:E2; [right; right; reflexivity|].
  right; left. ext_crush.
Qed.
End ExtOrd.

Module ExtOrderTac := MakeOrderTac ExtOrd ExtOrd.

Lemma ext_leb_le (a b : ext) : ext_leb a b = true <-> ext_le a b.
Proof. unfold ext_leb, ext_le. destruct (ext_ltb b a); simpl; split; congruence. Qed.

Lemma ext_leb_false_lt (a b : ext) : ext_leb a b = false <-> ext_lt b a.
Proof. unfold ext_leb, ext_lt. destruct (ext_ltb b a); simpl; split; congruence. Qed.

(** ** [random.shuffle] keeps the moves it is given *)

Section ShuffleFacts.
Context {A : Type}.

Lemma list_set_length (l : list A) i v : length (list_set l i v) = length l.
Proof.
  revert i; induction l as [|h t IH]; intros [|i]; simpl; auto.
Qed.

Lemma list_set_in (l : list A) i v y : In y (list_set l i v) -> In y l \/ y = v.
Proof.
  revert i; induction l as [|h t IH]; intros [|i]; simpl; auto.
  - intros [H|H]; auto.
  - intros [H|H]; auto. destruct (IH i H); auto.
Qed.

Lemma swap_length (l : list A) i j : length (swap l i j) = length l.
Proof.
  unfold swap.
  destruct (nth_error l i), (nth_error l j); rewrite ?list_set_length; auto.
Qed.

Lemma swap_in (l : list A) i j y : In y (swap l i j) -> In y l.
Proof.
  unfold swap.
  destruct (nth_error l i) eqn:Ei, (nth_error l j) eqn:Ej; auto.
  intros H. apply list_set_in in H as [H|H]; [apply list_set_in in H as [H|H]|];
    subst; eauto using nth_error_In.
Qed.

Lemma shuffle_loop_length draw k (l : list A) :
  length (shuffle_loop draw k l) = length l.
Proof.
  revert l; induction k; intros l; simpl; rewrite ?IHk, ?swap_length; auto.
Qed.

Lemma shuffle_loop_in draw k (l : list A) y :
  In y (shuffle_loop draw k l) -> In y l.
Proof.
  revert l; induction k; intros l; simpl; auto.
  intros H; apply IHk, swap_in in H; exact H.
Qed.

Lemma shuffle_length draw (l : list A) : length (shuffle draw l) = length l.
Proof. apply shuffle_loop_length. Qed.

Lemma shuffle_in draw (l : list A) y : In y (shuffle draw l) -> In y l.
Proof. apply shuffle_loop_in. Qed.

Lemma shuffle_nil draw : shuffle draw (@nil A) = [].
Proof. reflexivity. Qed.

Lemma shuffle_not_nil draw (l : list A) : l <> [] -> shuffle draw l <> [].
Proof.
  intros H E. apply H, length_zero_iff_nil.
  rewrite <- (shuffle_length draw), E. reflexivity.
Qed.

End ShuffleFacts.

(** ** The search leaves the board as it found it *)

Section SearchFacts.
Context {Move : Type} (G : Game Move).
Variable rnd : @board Move -> nat -> nat.

(** A recursive call, made right after a [push], returns normally and
    leaves the board as it received it. *)
Definition good_child (child : ext -> ext -> ST (ext * mvres (Move := Move))) :=
  forall a bt (x : Move) (b : board), exists p, child a bt (x :: b) = (Ok p, x :: b).

Lemma max_loop_step child beta (x : Move) rest alpha bs bm (b : board) p :
  child alpha beta (x :: b) = (Ok p, x :: b) ->
  max_loop child beta (x :: rest) alpha bs bm b =
  (let bs' := py_max bs (fst p) in
   let bm' := if ext_eqb (fst p) bs' then MMove x else bm in
   let alpha' := py_max alpha bs' in
   if ext_leb beta alpha' then (Ok (bs', bm'), b)
   else max_loop child beta rest alpha' bs' bm' b).
Proof.
  intros Hc. cbn [max_loop]. unfold bind at 1, push.   simpl. unfold bind at 1. rewrite Hc.
  destruct (ext_eqb (fst p) (py_max bs (fst p))); cbv [bind peek pop ret]; destruct (ext_leb _ _); reflexivity.
Qed.

Lemma min_loop_step child alpha (x : Move) rest beta bs bm (b : board) p :
  child alpha beta (x :: b) = (Ok p, x :: b) ->
  min_loop child alpha (x :: rest) beta bs bm b =
  (let bs' := py_min bs (fst p) in
   let bm' := if ext_eqb (fst p) bs' then MMove x else bm in
   let beta' := py_min beta bs' in
   if ext_leb beta' alpha then (Ok (bs', bm'), b)
   else min_loop child alpha rest beta' bs' bm' b).
Proof.
  intros Hc. cbn [min_loop]. unfold bind at 1, push.
  simpl. unfold bind at 1. rewrite Hc.
  destruct (ext_eqb (fst p) (py_min bs (fst p))); cbv [bind peek pop ret]; destruct (ext_leb _ _); reflexivity.
Qed.

Lemma max_loop_good child beta (ms : list Move) alpha bs bm (b : board) :
  good_child child ->
  exists p, max_loop child beta ms alpha bs bm b = (Ok p, b).
Proof.
  intros Hg. revert alpha bs bm.
  induction ms as [|x rest IH]; intros alpha bs bm.
  - eexists; reflexivity.
  - destruct (Hg alpha beta x b) as [p Hp].
    rewrite (max_loop_step _ _ _ _ _ _ _ _ _ Hp). cbv zeta.
    destruct (ext_leb _ _); eauto.
Qed.

Lemma min_loop_good child alpha (ms : list Move) beta bs bm (b : board) :
  good_child child ->
  exists p, min_loop child alpha ms beta bs bm b = (Ok p, b).
Proof.
  intros Hg. revert beta bs bm.
  induction ms as [|x rest IH]; intros beta bs bm.
  - eexists; reflexivity.
  - destruct (Hg alpha beta x b) as [p Hp].
    rewrite (min_loop_step _ _ _ _ _ _ _ _ _ Hp). cbv zeta.
    destruct (ext_leb _ _); eauto.
Qed.

Lemma minimax_good d r e :
  good_child (fun a bt => minimax G rnd d a bt r e).
Proof.
  revert r. induction d as [|d IH]; intros r a bt x b.
  - cbn. destruct (result G (x :: b)); eexists; reflexivity.
  - cbn [minimax]. unfold bind at 1, get. destruct r.
    + apply max_loop_good, IH.
    + apply min_loop_good, IH.
Qed.

Lemma minimax_ok_deep d a bt r e (b : board) :
  exists p, minimax G rnd (S d) a bt r e b = (Ok p, b).
Proof.
  cbn [minimax]. unfold bind at 1, get. destruct r.
  - apply max_loop_good, minimax_good.
  - apply min_loop_good, minimax_good.
Qed.

Lemma leaf_state e (b : board) : snd (leaf G e b) = b.
Proof.
  unfold leaf, bind, get. destruct (result G b), b; reflexivity.
Qed.

Lemma minimax_state depth alpha beta is_maximizing e (b : board) :
  snd (minimax G rnd depth alpha beta is_maximizing e b) = b.
Proof.
  destruct depth as [|d].
  - apply leaf_state.
  - destruct (minimax_ok_deep d alpha beta is_maximizing e b) as [p ->].
    reflexivity.
Qed.

End SearchFacts.

(** ** Claims about a single search *)

Section SearchClaims.
Context {Move : Type} (G : Game Move).
Variable rnd : @board Move -> nat -> nat.

(** C3: every call of [minimax], whatever its arguments, leaves the board
    exactly as it was before the call: each [push] is undone, also on the
    pruning return. *)
Theorem minimax_restores_board (depth : nat) (alpha beta : ext)
    (is_maximizing : bool) (e : evaluator) (b : board) :
  snd (minimax G rnd depth alpha beta is_maximizing e b) = b.
Proof.
  apply minimax_state.
Qed.

(** C4: at depth 0, on a position that is neither won by White nor by Black
    and has a last move [m], [minimax] returns [-e(board)] and [m]. *)
Theorem minimax_depth0_eval (alpha beta : ext) (is_maximizing : bool)
    (e : evaluator) (m : Move) (b : board) :
  result G (m :: b) <> WhiteWins -> result G (m :: b) <> BlackWins ->
  minimax G rnd 0 alpha beta is_maximizing e (m :: b)
  = (Ok (Fin (- e (m :: b)), MMove m), m :: b).
Proof.
  intros HW HB. cbn [minimax]. unfold leaf, bind, get, peek, ret.
  destruct (result G (m :: b)); solve [reflexivity | exfalso; congruence].
Qed.

(** C5 (amended): at depth 0, a position won by White with a last move [m]
    scores [+inf] with move [m], and a position won by Black scores [-inf],
    whatever the evaluator, bounds and role. *)
Theorem minimax_depth0_terminal (alpha beta : ext) (is_maximizing : bool)
    (e : evaluator) :
  (forall (m : Move) (b : board), result G (m :: b) = WhiteWins ->
     fst (minimax G rnd 0 alpha beta is_maximizing e (m :: b))
     = Ok (PosInf, MMove m)) /\
  (forall b : board, result G b = BlackWins ->
     exists mv, fst (minimax G rnd 0 alpha beta is_maximizing e b)
                = Ok (NegInf, mv)).
Proof.
  split.
  - intros m b H. cbn. rewrite H. reflexivity.
  - intros b H. cbn. rewrite H. eexists; reflexivity.
Qed.

(** C7: at depth [> 0], with no legal move, [minimax] returns the initial
    sentinel, [-inf] or [+inf] by role with no move, and the board
    unchanged. *)
Theorem minimax_no_moves (d : nat) (alpha beta : ext) (is_maximizing : bool)
    (e : evaluator) (b : board) :
  legal_moves G b = [] ->
  minimax G rnd (S d) alpha beta is_maximizing e b
  = (Ok (if is_maximizing then NegInf else PosInf, MNone), b).
Proof.
  intros H. cbn [minimax]. unfold bind at 1, get. rewrite H, shuffle_nil.
  destruct is_maximizing; reflexivity.
Qed.

Lemma max_loop_move child beta (ms : list Move) alpha bs bm (b : board) :
  good_child child ->
  exists s bm', max_loop child beta ms alpha bs bm b = (Ok (s, bm'), b) /\
    (bm' = bm \/ exists m, bm' = MMove m /\ In m ms).
Proof.
  intros Hg. revert alpha bs bm.
  induction ms as [|x rest IH]; intros alpha bs bm.
  - do 2 eexists; split; [reflexivity | auto].
  - destruct (Hg alpha beta x b) as [p Hp].
    rewrite (max_loop_step _ _ _ _ _ _ _ _ _ Hp). cbv zeta.
    set (bm1 := if ext_eqb (fst p) (py_max bs (fst p)) then MMove x else bm).
    assert (Hbm1 : bm1 = bm \/ exists m, bm1 = MMove m /\ In m (x :: rest)).
    { unfold bm1. destruct (ext_eqb _ _); [right; exists x; simpl|]; auto. }
    destruct (ext_leb _ _).
    + do 2 eexists; split; [reflexivity | exact Hbm1].
    + destruct (IH (py_max alpha (py_max bs (fst p))) (py_max bs (fst p)) bm1)
        as (s & bm' & E & Hm).
      exists s, bm'; split; [exact E|].
      destruct Hm as [-> | (m & -> & Hin)]; [|right; exists m; simpl; auto].
      destruct Hbm1 as [-> | ?]; auto.
Qed.

Lemma min_loop_move child alpha (ms : list Move) beta bs bm (b : board) :
  good_child child ->
  exists s bm', min_loop child alpha ms beta bs bm b = (Ok (s, bm'), b) /\
    (bm' = bm \/ exists m, bm' = MMove m /\ In m ms).
Proof.
  intros Hg. revert beta bs bm.
  induction ms as [|x rest IH]; intros beta bs bm.
  - do 2 eexists; split; [reflexivity | auto].
  - destruct (Hg alpha beta x b) as [p Hp].
    rewrite (min_loop_step _ _ _ _ _ _ _ _ _ Hp). cbv zeta.
    set (bm1 := if ext_eqb (fst p) (py_min bs (fst p)) then MMove x else bm).
    assert (Hbm1 : bm1 = bm \/ exists m, bm1 = MMove m /\ In m (x :: rest)).
    { unfold bm1. destruct (ext_eqb _ _); [right; exists x; simpl|]; auto. }
    destruct (ext_leb _ _).
    + do 2 eexists; split; [reflexivity | exact Hbm1].
    + destruct (IH (py_min beta (py_min bs (fst p))) (py_min bs (fst p)) bm1)
        as (s & bm' & E & Hm).
      exists s, bm'; split; [exact E|].
      destruct Hm as [-> | (m & -> & Hin)]; [|right; exists m; simpl; auto].
      destruct Hbm1 as [-> | ?]; auto.
Qed.

(** C9: at depth [> 0], when the position has a legal move, the move
    [minimax] returns is set and is one of the legal moves. *)
Theorem minimax_returns_legal_move (d : nat) (alpha beta : ext)
    (is_maximizing : bool) (e : evaluator) (b : board) :
  legal_moves G b <> [] ->
  exists s m, minimax G rnd (S d) alpha beta is_maximizing e b
              = (Ok (s, MMove m), b) /\ In m (legal_moves G b).
Proof.
  intros Hne. cbn [minimax]. unfold bind at 1, get.
  pose proof (shuffle_in (rnd b) (legal_moves G b)) as Hin.
  destruct (shuffle (rnd b) (legal_moves G b)) as [|x rest] eqn:Hs.
  { exfalso. exact (shuffle_not_nil (rnd b) _ Hne Hs). }
  destruct is_maximizing.
  - destruct (minimax_good G rnd d false e alpha beta x b) as [p Hp].
    rewrite (max_loop_step _ _ _ _ _ _ _ _ _ Hp). cbv zeta.
    rewrite py_max_neginf, ext_eqb_refl.
    destruct (ext_leb _ _).
    + exists (fst p), x; split; [reflexivity | apply Hin; simpl; auto].
    + destruct (max_loop_move (fun a bt => minimax G rnd d a bt (negb true) e)
                  beta rest (py_max alpha (fst p)) (fst p) (MMove x) b
                  (minimax_good G rnd d (negb true) e))
        as (s & bm' & E & [-> | (m & -> & Hm)]); rewrite E.
      * exists s, x; split; [reflexivity | apply Hin; simpl; auto].
      * exists s, m; split; [reflexivity | apply Hin; simpl; auto].
  - destruct (minimax_good G rnd d true e alpha beta x b) as [p Hp].
    rewrite (min_loop_step _ _ _ _ _ _ _ _ _ Hp). cbv zeta.
    rewrite py_min_posinf, ext_eqb_refl.
    destruct (ext_leb _ _).
    + exists (fst p), x; split; [reflexivity | apply Hin; simpl; auto].
    + destruct (min_loop_move (fun a bt => minimax G rnd d a bt (negb false) e)
                  alpha rest (py_min beta (fst p)) (fst p) (MMove x) b
                  (minimax_good G rnd d (negb false) e))
        as (s & bm' & E & [-> | (m & -> & Hm)]); rewrite E.
      * exists s, x; split; [reflexivity | apply Hin; simpl; auto].
      * exists s, m; split; [reflexivity | apply Hin; simpl; auto].
Qed.

End SearchClaims.

Section CutoffClaims.
Context {Move : Type} (G : Game Move).
Variable rnd : @board Move -> nat -> nat.

Lemma minimax_first_cutoff (d : nat) (alpha beta : ext) (is_maximizing : bool)
    (e : evaluator) (b : board) (x : Move) (rest : list Move) :
  ext_leb beta alpha = true ->
  shuffle (rnd b) (legal_moves G b) = x :: rest ->
  minimax G rnd (S d) alpha beta is_maximizing e b
  = (match fst (minimax G rnd d alpha beta (negb is_maximizing) e (x :: b)) with
     | Ok (s, _) => Ok (s, MMove x)
     | Err err => Err err
     end, b).
Proof.
  intros Hab Hs. cbn [minimax]. unfold bind at 1, get. rewrite Hs.
  destruct (minimax_good G rnd d (negb is_maximizing) e alpha beta x b)
    as [[s mv] Hp].
  rewrite Hp. simpl fst. destruct is_maximizing.
  - rewrite (max_loop_step _ _ _ _ _ _ _ _ _ Hp). cbv zeta. simpl fst.
    rewrite py_max_neginf, ext_eqb_refl, (leb_py_max_r _ _ _ Hab). reflexivity.
  - rewrite (min_loop_step _ _ _ _ _ _ _ _ _ Hp). cbv zeta. simpl fst.
    rewrite py_min_posinf, ext_eqb_refl, (leb_py_min_l _ _ _ Hab). reflexivity.
Qed.

(** C10: at depth [> 0], when [beta <= alpha] and the shuffled move list
    starts with [x], [minimax] examines only [x]: it returns the score of the
    recursive call on [x] with move [x].  Called with [alpha = +inf] and
    [beta = -inf], as for White in [play_game], the bounds reach every node
    unchanged, so the search follows the first shuffled move at every
    level ([first_move_line]). *)
Theorem minimax_inverted_window_first_move :
  (forall (d : nat) (alpha beta : ext) (is_maximizing : bool) (e : evaluator)
          (b : board) (x : Move) (rest : list Move),
     ext_leb beta alpha = true ->
     shuffle (rnd b) (legal_moves G b) = x :: rest ->
     minimax G rnd (S d) alpha beta is_maximizing e b
     = (match fst (minimax G rnd d alpha beta (negb is_maximizing) e (x :: b))
        with
        | Ok (s, _) => Ok (s, MMove x)
        | Err err => Err err
        end, b)) /\
  (forall (d : nat) (is_maximizing : bool) (e : evaluator) (b : board),
     minimax G rnd d PosInf NegInf is_maximizing e b
     = (first_move_line G rnd d is_maximizing e b, b)).
Proof.
  split.
  - exact minimax_first_cutoff.
  - induction d as [|d IH]; intros r e b.
    + cbn [minimax first_move_line].
      pose proof (leaf_state G e b) as H.
      destruct (leaf G e b) as [o b']; simpl in *; subst; reflexivity.
    + cbn [first_move_line].
      destruct (shuffle (rnd b) (legal_moves G b)) as [|x rest] eqn:Hs.
      * cbn [minimax]. unfold bind at 1, get. rewrite Hs.
        destruct r; reflexivity.
      * rewrite (minimax_first_cutoff d PosInf NegInf r e b x rest eq_refl Hs).
        rewrite IH. reflexivity.
Qed.

End CutoffClaims.

Lemma ext_ltb_leb (a b : ext) : ext_ltb a b = true -> ext_leb a b = true.
Proof. intros; ext_crush. Qed.

Section TieBreak.
Context {Move : Type} (G : Game Move).
Variable rnd : @board Move -> nat -> nat.

(** The running [==] test keeps the last examined move whose score equals
    the final best score: moves examined before it score at most as much,
    moves examined after it score strictly less. *)
Lemma max_loop_trace child beta (ms : list Move) alpha bs bm (b : board) :
  good_child child ->
  exists s bm', max_loop child beta ms alpha bs bm b = (Ok (s, bm'), b) /\
    ((bm' = bm /\ s = bs /\
      Forall (fun p => ext_ltb (snd p) bs = true)
             (max_trace child beta ms alpha bs b)) \/
     (exists m pre post, bm' = MMove m /\
      max_trace child beta ms alpha bs b = pre ++ (m, s) :: post /\
      Forall (fun p => ext_leb (snd p) s = true) pre /\
      Forall (fun p => ext_ltb (snd p) s = true) post /\
      ext_leb bs s = true)).
Proof.
  intros Hg. revert alpha bs bm.
  induction ms as [|x rest IH]; intros alpha bs bm.
  - exists bs, bm; split; [reflexivity|]. left; auto.
  - destruct (Hg alpha beta x b) as [[r mv] Hp].
    rewrite (max_loop_step _ _ _ _ _ _ _ _ _ Hp). cbv zeta. simpl fst.
    cbn [max_trace]. rewrite Hp. simpl fst. cbv zeta.
    destruct (py_max_update bs r) as [(Heq & Hmax & Hle) | (Heq & Hmax & Hlt)];
      rewrite Heq, Hmax.
    + destruct (ext_leb beta (py_max alpha r)).
      * exists r, (MMove x); split; [reflexivity|].
        right; exists x, [], []; repeat split; auto.
      * destruct (IH (py_max alpha r) r (MMove x))
          as (s & bm' & E & [(-> & -> & Hf) | (m & pre & post & -> & Ht & Hpre & Hpost & Hrs)]).
        -- exists r, (MMove x); split; [exact E|].
           right; exists x, [], (max_trace child beta rest (py_max alpha r) r b).
           repeat split; auto.
        -- exists s, (MMove m); split; [exact E|].
           right; exists m, ((x, r) :: pre), post. rewrite Ht.
           repeat split; auto. eauto using ext_leb_trans.
    + destruct (ext_leb beta (py_max alpha bs)).
      * exists bs, bm; split; [reflexivity|]. left; auto.
      * destruct (IH (py_max alpha bs) bs bm)
          as (s & bm' & E & [(-> & -> & Hf) | (m & pre & post & -> & Ht & Hpre & Hpost & Hrs)]).
        -- exists bs, bm; split; [exact E|]. left; auto.
        -- exists s, (MMove m); split; [exact E|].
           right; exists m, ((x, r) :: pre), post. rewrite Ht.
           repeat split; auto.
           constructor; auto. apply ext_ltb_leb. eauto using ext_lt_le_trans.
Qed.

Lemma min_loop_trace child alpha (ms : list Move) beta bs bm (b : board) :
  good_child child ->
  exists s bm', min_loop child alpha ms beta bs bm b = (Ok (s, bm'), b) /\
    ((bm' = bm /\ s = bs /\
      Forall (fun p => ext_ltb bs (snd p) = true)
             (min_trace child alpha ms beta bs b)) \/
     (exists m pre post, bm' = MMove m /\
      min_trace child alpha ms beta bs b = pre ++ (m, s) :: post /\
      Forall (fun p => ext_leb s (snd p) = true) pre /\
      Forall (fun p => ext_ltb s (snd p) = true) post /\
      ext_leb s bs = true)).
Proof.
  intros Hg. revert beta bs bm.
  induction ms as [|x rest IH]; intros beta bs bm.
  - exists bs, bm; split; [reflexivity|]. left; auto.
  - destruct (Hg alpha beta x b) as [[r mv] Hp].
    rewrite (min_loop_step _ _ _ _ _ _ _ _ _ Hp). cbv zeta. simpl fst.
    cbn [min_trace]. rewrite Hp. simpl fst. cbv zeta.
    destruct (py_min_update bs r) as [(Heq & Hmin & Hle) | (Heq & Hmin & Hlt)];
      rewrite Heq, Hmin.
    + destruct (ext_leb (py_min beta r) alpha).
      * exists r, (MMove x); split; [reflexivity|].
        right; exists x, [], []; repeat split; auto.
      * destruct (IH (py_min beta r) r (MMove x))
          as (s & bm' & E & [(-> & -> & Hf) | (m & pre & post & -> & Ht & Hpre & Hpost & Hrs)]).
        -- exists r, (MMove x); split; [exact E|].
           right; exists x, [], (min_trace child alpha rest (py_min beta r) r b).
           repeat split; auto.
        -- exists s, (MMove m); split; [exact E|].
           right; exists m, ((x, r) :: pre), post. rewrite Ht.
           repeat split; auto. eauto using ext_leb_trans.
    + destruct (ext_leb (py_min beta bs) alpha).
      * exists bs, bm; split; [reflexivity|]. left; auto.
      * destruct (IH (py_min beta bs) bs bm)
          as (s & bm' & E & [(-> & -> & Hf) | (m & pre & post & -> & Ht & Hpre & Hpost & Hrs)]).
        -- exists bs, bm; split; [exact E|]. left; auto.
        -- exists s, (MMove m); split; [exact E|].
           right; exists m, ((x, r) :: pre), post. rewrite Ht.
           repeat split; auto.
           constructor; auto. apply ext_ltb_leb. eauto using ext_le_lt_trans.
Qed.

End TieBreak.

Section TieBreakClaim.
Context {Move : Type} (G : Game Move).
Variable rnd : @board Move -> nat -> nat.

Lemma max_trace_not_nil child beta (ms : list Move) alpha bs (b : board) :
  good_child child -> ms <> [] -> max_trace child beta ms alpha bs b <> [].
Proof.
  intros Hg Hne. destruct ms as [|x rest]; [congruence|].
  destruct (Hg alpha beta x b) as [[r mv] Hp].
  cbn [max_trace]. rewrite Hp. simpl. congruence.
Qed.

Lemma min_trace_not_nil child alpha (ms : list Move) beta bs (b : board) :
  good_child child -> ms <> [] -> min_trace child alpha ms beta bs b <> [].
Proof.
  intros Hg Hne. destruct ms as [|x rest]; [congruence|].
  destruct (Hg alpha beta x b) as [[r mv] Hp].
  cbn [min_trace]. rewrite Hp. simpl. congruence.
Qed.

(** C6: at depth [> 0], for any fixed order of the moves (any draws of the
    shuffle), the move [minimax] returns is the LAST examined move whose
    score equals the returned best score: in the sequence of examined moves
    and their scores ([max_trace] / [min_trace]), the moves before it score
    no better and the moves after it score strictly worse. *)
Theorem minimax_tie_last (d : nat) (alpha beta : ext) (e : evaluator)
    (b : board) :
  legal_moves G b <> [] ->
  (exists s m pre post,
     fst (minimax G rnd (S d) alpha beta true e b) = Ok (s, MMove m) /\
     max_trace (fun a bt => minimax G rnd d a bt false e) beta
               (shuffle (rnd b) (legal_moves G b)) alpha NegInf b
     = pre ++ (m, s) :: post /\
     Forall (fun p => ext_leb (snd p) s = true) pre /\
     Forall (fun p => ext_ltb (snd p) s = true) post) /\
  (exists s m pre post,
     fst (minimax G rnd (S d) alpha beta false e b) = Ok (s, MMove m) /\
     min_trace (fun a bt => minimax G rnd d a bt true e) alpha
               (shuffle (rnd b) (legal_moves G b)) beta PosInf b
     = pre ++ (m, s) :: post /\
     Forall (fun p => ext_leb s (snd p) = true) pre /\
     Forall (fun p => ext_ltb s (snd p) = true) post).
Proof.
  intros Hne. pose proof (shuffle_not_nil (rnd b) _ Hne) as Hsne.
  split.
  - cbn [minimax negb]. unfold bind at 1, get.
    destruct (max_loop_trace (fun a bt => minimax G rnd d a bt false e) beta
                (shuffle (rnd b) (legal_moves G b)) alpha NegInf MNone b
                (minimax_good G rnd d false e))
      as (s & bm' & -> & [(_ & _ & Hf) | (m & pre & post & -> & Ht & Hpre & Hpost & _)]).
    + exfalso.
      destruct (max_trace _ _ _ _ _ _) as [|[x r] tr] eqn:E.
      * exact (max_trace_not_nil _ _ _ _ _ _ (minimax_good G rnd d false e) Hsne E).
      * inversion Hf as [|? ? Hr]; subst. simpl in Hr.
        rewrite ext_ltb_neginf in Hr. discriminate.
    + exists s, m, pre, post; auto.
  - cbn [minimax negb]. unfold bind at 1, get.
    destruct (min_loop_trace (fun a bt => minimax G rnd d a bt true e) alpha
                (shuffle (rnd b) (legal_moves G b)) beta PosInf MNone b
                (minimax_good G rnd d true e))
      as (s & bm' & -> & [(_ & _ & Hf) | (m & pre & post & -> & Ht & Hpre & Hpost & _)]).
    + exfalso.
      destruct (min_trace _ _ _ _ _ _) as [|[x r] tr] eqn:E.
      * exact (min_trace_not_nil _ _ _ _ _ _ (minimax_good G rnd d true e) Hsne E).
      * inversion Hf as [|? ? Hr]; subst. simpl in Hr.
        rewrite ?ext_ltb_posinf in Hr. discriminate.
    + exists s, m, pre, post; auto.
Qed.

End TieBreakClaim.

(** ** Claims about [play_game] *)

Section DriverClaims.
Context {Move : Type} (G : Game Move).
Variable from_square_occupied : @board Move -> Move -> bool.
Variables (white_eval : evaluator (Move := Move)) (white_depth : nat)
          (black_eval : evaluator (Move := Move)) (black_depth : nat).
Variable rnd : nat -> @board Move -> nat -> nat.

(** C8: in each iteration of the [play_game] loop on a position that is not
    over, White searches as the maximizing side with root bounds
    [(alpha, beta) = (+inf, -inf)], Black as the minimizing side with
    [(-inf, +inf)], and the result of that search is pushed on the board:
    a returned move [m] is applied and the game goes on from [m :: b] when
    a piece stands on its from-square, [board.push] raises
    [AssertionError] when none does, and anything that is not a move makes
    it raise [AttributeError]. *)
Theorem play_loop_root_seeding (fuel k : nat) (b : board) :
  is_game_over G b = false ->
  (turn G b = White -> forall s mv,
     fst (minimax G (rnd k) white_depth PosInf NegInf true white_eval b)
     = Ok (s, mv) ->
     play_loop G from_square_occupied white_eval white_depth black_eval
               black_depth rnd (S fuel) k b
     = match mv with
       | MMove m =>
           if from_square_occupied b m
           then play_loop G from_square_occupied white_eval white_depth
                          black_eval black_depth rnd fuel (S k) (m :: b)
           else (Err AssertionError, b)
       | _ => (Err AttributeError, b)
       end) /\
  (turn G b = Black -> forall s mv,
     fst (minimax G (rnd k) black_depth NegInf PosInf false black_eval b)
     = Ok (s, mv) ->
     play_loop G from_square_occupied white_eval white_depth black_eval
               black_depth rnd (S fuel) k b
     = match mv with
       | MMove m =>
           if from_square_occupied b m
           then play_loop G from_square_occupied white_eval white_depth
                          black_eval black_depth rnd fuel (S k) (m :: b)
           else (Err AssertionError, b)
       | _ => (Err AttributeError, b)
       end).
Proof.
  intros Hover. split; intros Hturn s mv Hm.
  - cbn [play_loop]. unfold bind at 1, get. rewrite Hover, Hturn.
    unfold bind at 1.
    pose proof (minimax_state G (rnd k) white_depth PosInf NegInf true
                  white_eval b) as Hst.
    destruct (minimax G (rnd k) white_depth PosInf NegInf true white_eval b)
      as [r b']; simpl in Hm, Hst; subst.
    destruct mv as [|m|]; cbn [snd]; unfold push_result, bind, get, push, raise;
      [reflexivity| |reflexivity].
    destruct (from_square_occupied b m); reflexivity.
  - cbn [play_loop]. unfold bind at 1, get. rewrite Hover, Hturn.
    unfold bind at 1.
    pose proof (minimax_state G (rnd k) black_depth NegInf PosInf false
                  black_eval b) as Hst.
    destruct (minimax G (rnd k) black_depth NegInf PosInf false black_eval b)
      as [r b']; simpl in Hm, Hst; subst.
    destruct mv as [|m|]; cbn [snd]; unfold push_result, bind, get, push, raise;
      [reflexivity| |reflexivity].
    destruct (from_square_occupied b m); reflexivity.
Qed.

End DriverClaims.

(** ** Alpha-beta against the exhaustive search *)

(** Fail-soft alpha-beta: how a score [r] searched in the window
    [(alpha, beta)] relates to the exhaustive score [v]. *)
Definition failsoft (alpha beta v r : ext) : Prop :=
  (ext_leb v alpha = true -> ext_leb v r = true /\ ext_leb r alpha = true) /\
  (ext_ltb alpha v = true -> ext_ltb v beta = true -> r = v) /\
  (ext_leb beta v = true -> ext_leb beta r = true /\ ext_leb r v = true).

Lemma failsoft_exact (alpha beta v : ext) :
  ext_ltb alpha beta = true -> failsoft alpha beta v v.
Proof. unfold failsoft; intros; repeat split; intros; ext_crush. Qed.

Lemma failsoft_full_window (v r : ext) : failsoft NegInf PosInf v r -> r = v.
Proof. unfold failsoft; intros (H1 & H2 & H3); ext_crush. Qed.

Lemma failsoft_high (alpha0 beta r v : ext) :
  ext_ltb alpha0 beta = true -> ext_leb beta r = true -> ext_leb r v = true ->
  failsoft alpha0 beta v r.
Proof. unfold failsoft; intros; repeat split; intros; ext_crush. Qed.

(** Maximizing node, loop invariant: either no score has risen above the
    initial alpha (then alpha is still the initial one and the running best
    score bounds the exhaustive one from above), or the running best score
    is inside the window, equals the exhaustive one, and is the alpha. *)
Definition max_inv (alpha0 alpha bs vs : ext) : Prop :=
  (alpha = alpha0 /\ ext_leb bs alpha0 = true /\ ext_leb vs bs = true) \/
  (alpha = bs /\ ext_ltb alpha0 bs = true /\ bs = vs).

Definition min_inv (beta0 beta bs vs : ext) : Prop :=
  (beta = beta0 /\ ext_leb beta0 bs = true /\ ext_leb bs vs = true) \/
  (beta = bs /\ ext_ltb bs beta0 = true /\ bs = vs).

Ltac ext_goal :=
  lazymatch goal with
  | |- _ /\ _ => split; ext_goal
  | |- _ \/ _ => first [left; ext_goal | right; ext_goal]
  | |- true = true => reflexivity
  | |- false = false => reflexivity
  | |- ext_ltb ?a ?b = false => change (ext_le b a); ExtOrderTac.order
  | |- ext_leb _ _ = false => apply ext_leb_false_lt; ExtOrderTac.order
  | |- ext_leb _ _ = true => apply ext_leb_le; ExtOrderTac.order
  | |- ext_ltb ?a ?b = true => change (ext_lt a b); ExtOrderTac.order
  | |- _ => ExtOrderTac.order
  end.

Ltac ext_order :=
  unfold py_max, py_min in *;
  repeat match goal with
         | H : _ /\ _ |- _ => destruct H
         | H : _ \/ _ |- _ => destruct H
         | |- context [if ext_ltb ?a ?b then _ else _] =>
             destruct (ext_ltb a b) eqn:?
         | H : context [if ext_ltb ?a ?b then _ else _] |- _ =>
             destruct (ext_ltb a b) eqn:?
         end;
  try discriminate;
  repeat match goal with
         | H : ext_leb _ _ = true |- _ => apply ext_leb_le in H
         | H : ext_leb _ _ = false |- _ => apply ext_leb_false_lt in H
         | H : ext_ltb ?a ?b = true |- _ => change (ext_lt a b) in H
         | H : ext_ltb ?a ?b = false |- _ => change (ext_le b a) in H
         end;
  ext_goal.

Lemma failsoft_cases (alpha beta v r : ext) :
  ext_ltb alpha beta = true -> failsoft alpha beta v r ->
  (ext_leb v alpha = true /\ ext_leb v r = true /\ ext_leb r alpha = true) \/
  (ext_ltb alpha v = true /\ ext_ltb v beta = true /\ r = v) \/
  (ext_leb beta v = true /\ ext_leb beta r = true /\ ext_leb r v = true).
Proof.
  intros Hab (F1 & F2 & F3).
  destruct (ext_ltb alpha v) eqn:Hav.
  - destruct (ext_ltb v beta) eqn:Hvb.
    + right; left; auto.
    + right; right. unfold ext_leb in *.
      rewrite Hvb in F3 |- *. destruct (F3 eq_refl); auto.
  - left. unfold ext_leb in *. rewrite Hav in F1 |- *.
    destruct (F1 eq_refl); auto.
Qed.

Lemma max_inv_done alpha0 beta alpha bs vs :
  ext_ltb alpha beta = true -> max_inv alpha0 alpha bs vs ->
  failsoft alpha0 beta vs bs.
Proof.
  unfold max_inv, failsoft.
  intros Hab [(-> & H1 & H2) | (-> & H1 & ->)]; repeat split; intros; ext_crush.
Qed.

Lemma min_inv_done alpha beta0 beta bs vs :
  ext_ltb alpha beta = true -> min_inv beta0 beta bs vs ->
  failsoft alpha beta0 vs bs.
Proof.
  unfold min_inv, failsoft.
  intros Hab [(-> & H1 & H2) | (-> & H1 & ->)]; repeat split; intros; ext_crush.
Qed.

Lemma max_inv_cut alpha0 beta alpha bs vs ri vi :
  ext_ltb alpha beta = true -> max_inv alpha0 alpha bs vs ->
  failsoft alpha beta vi ri ->
  ext_leb beta (py_max alpha (py_max bs ri)) = true ->
  ext_leb beta (py_max bs ri) = true /\
  ext_leb (py_max bs ri) (py_max vs vi) = true.
Proof.
  unfold max_inv, failsoft.
  intros Hab Hinv F Hc. apply failsoft_cases in F; [|exact Hab].
  destruct Hinv as [(-> & H1 & H2) | (-> & H1 & ->)]; ext_order.
Qed.

Lemma max_inv_step alpha0 beta alpha bs vs ri vi :
  ext_ltb alpha beta = true -> max_inv alpha0 alpha bs vs ->
  failsoft alpha beta vi ri ->
  ext_leb beta (py_max alpha (py_max bs ri)) = false ->
  ext_ltb (py_max alpha (py_max bs ri)) beta = true /\
  max_inv alpha0 (py_max alpha (py_max bs ri)) (py_max bs ri) (py_max vs vi).
Proof.
  unfold max_inv.
  intros Hab Hinv F Hc. apply failsoft_cases in F; [|exact Hab].
  destruct Hinv as [(-> & H1 & H2) | (-> & H1 & ->)]; ext_order.
Qed.

Lemma min_inv_cut alpha beta0 beta bs vs ri vi :
  ext_ltb alpha beta = true -> min_inv beta0 beta bs vs ->
  failsoft alpha beta vi ri ->
  ext_leb (py_min beta (py_min bs ri)) alpha = true ->
  ext_leb (py_min bs ri) alpha = true /\
  ext_leb (py_min vs vi) (py_min bs ri) = true.
Proof.
  unfold min_inv.
  intros Hab Hinv F Hc. apply failsoft_cases in F; [|exact Hab].
  destruct Hinv as [(-> & H1 & H2) | (-> & H1 & ->)]; ext_order.
Qed.

Lemma min_inv_step alpha beta0 beta bs vs ri vi :
  ext_ltb alpha beta = true -> min_inv beta0 beta bs vs ->
  failsoft alpha beta vi ri ->
  ext_leb (py_min beta (py_min bs ri)) alpha = false ->
  ext_ltb alpha (py_min beta (py_min bs ri)) = true /\
  min_inv beta0 (py_min beta (py_min bs ri)) (py_min bs ri) (py_min vs vi).
Proof.
  unfold min_inv.
  intros Hab Hinv F Hc. apply failsoft_cases in F; [|exact Hab].
  destruct Hinv as [(-> & H1 & H2) | (-> & H1 & ->)]; ext_order.
Qed.

Lemma failsoft_low (alpha beta0 r v : ext) :
  ext_ltb alpha beta0 = true -> ext_leb r alpha = true -> ext_leb v r = true ->
  failsoft alpha beta0 v r.
Proof. unfold failsoft; intros; repeat split; intros; ext_order. Qed.

Lemma max_inv_alpha0 alpha0 beta alpha bs vs :
  ext_ltb alpha beta = true -> max_inv alpha0 alpha bs vs ->
  ext_ltb alpha0 beta = true.
Proof. unfold max_inv; intros; ext_order. Qed.

Lemma min_inv_beta0 alpha beta0 beta bs vs :
  ext_ltb alpha beta = true -> min_inv beta0 beta bs vs ->
  ext_ltb alpha beta0 = true.
Proof. unfold min_inv; intros; ext_order. Qed.

Lemma max_inv_init (alpha : ext) : max_inv alpha alpha NegInf NegInf.
Proof. left; split; [reflexivity|]; split; ext_crush. Qed.

Lemma min_inv_init (beta : ext) : min_inv beta beta PosInf PosInf.
Proof. left; split; [reflexivity|]; split; ext_crush. Qed.

Lemma ext_leb_py_max (a b : ext) : ext_leb a (py_max a b) = true.
Proof. ext_crush. Qed.

Lemma ext_leb_py_min (a b : ext) : ext_leb (py_min a b) a = true.
Proof. ext_crush. Qed.

Section Exhaustive.
Context {Move : Type} (G : Game Move).
Variable rnd : @board Move -> nat -> nat.

Definition good_exh (child : ST (ext * mvres (Move := Move))) :=
  forall (x : Move) (b : board), exists p, child (x :: b) = (Ok p, x :: b).

Lemma max_loop_exh_step child (x : Move) rest bs bm (b : board) p :
  child (x :: b) = (Ok p, x :: b) ->
  max_loop_exh child (x :: rest) bs bm b =
  max_loop_exh child rest (py_max bs (fst p))
    (if ext_eqb (fst p) (py_max bs (fst p)) then MMove x else bm) b.
Proof.
  intros Hc. cbn [max_loop_exh]. unfold bind at 1, push.
  simpl. unfold bind at 1. rewrite Hc.
  destruct (ext_eqb (fst p) (py_max bs (fst p))); reflexivity.
Qed.

Lemma min_loop_exh_step child (x : Move) rest bs bm (b : board) p :
  child (x :: b) = (Ok p, x :: b) ->
  min_loop_exh child (x :: rest) bs bm b =
  min_loop_exh child rest (py_min bs (fst p))
    (if ext_eqb (fst p) (py_min bs (fst p)) then MMove x else bm) b.
Proof.
  intros Hc. cbn [min_loop_exh]. unfold bind at 1, push.
  simpl. unfold bind at 1. rewrite Hc.
  destruct (ext_eqb (fst p) (py_min bs (fst p))); reflexivity.
Qed.

(** The exhaustive loops end with a best score no worse than where they
    started. *)
Lemma max_loop_exh_ge child (ms : list Move) bs bm (b : board) :
  good_exh child ->
  exists v q, max_loop_exh child ms bs bm b = (Ok (v, q), b) /\
              ext_leb bs v = true.
Proof.
  intros Hg. revert bs bm.
  induction ms as [|x rest IH]; intros bs bm.
  - exists bs, bm; split; [reflexivity | apply ext_leb_refl].
  - destruct (Hg x b) as [p Hp]. rewrite (max_loop_exh_step _ _ _ _ _ _ _ Hp).
    destruct (IH (py_max bs (fst p))
                 (if ext_eqb (fst p) (py_max bs (fst p)) then MMove x else bm))
      as (v & q & E & Hle).
    exists v, q; split; [exact E|].
    eapply ext_leb_trans; [apply ext_leb_py_max | exact Hle].
Qed.

Lemma min_loop_exh_le child (ms : list Move) bs bm (b : board) :
  good_exh child ->
  exists v q, min_loop_exh child ms bs bm b = (Ok (v, q), b) /\
              ext_leb v bs = true.
Proof.
  intros Hg. revert bs bm.
  induction ms as [|x rest IH]; intros bs bm.
  - exists bs, bm; split; [reflexivity | apply ext_leb_refl].
  - destruct (Hg x b) as [p Hp]. rewrite (min_loop_exh_step _ _ _ _ _ _ _ Hp).
    destruct (IH (py_min bs (fst p))
                 (if ext_eqb (fst p) (py_min bs (fst p)) then MMove x else bm))
      as (v & q & E & Hle).
    exists v, q; split; [exact E|].
    eapply ext_leb_trans; [exact Hle | apply ext_leb_py_min].
Qed.

Lemma minimax_exhaustive_good d r e :
  good_exh (minimax_exhaustive G rnd d r e).
Proof.
  revert r. induction d as [|d IH]; intros r x b.
  - cbn. destruct (result G (x :: b)); eexists; reflexivity.
  - cbn [minimax_exhaustive]. unfold bind at 1, get. destruct r.
    + destruct (max_loop_exh_ge _ (shuffle (rnd (x :: b)) (legal_moves G (x :: b)))
                  NegInf MNone (x :: b) (IH (negb true))) as (v & q & E & _).
      exists (v, q); exact E.
    + destruct (min_loop_exh_le _ (shuffle (rnd (x :: b)) (legal_moves G (x :: b)))
                  PosInf MNone (x :: b) (IH (negb false))) as (v & q & E & _).
      exists (v, q); exact E.
Qed.

Lemma minimax_exhaustive_ok_deep d r e (b : board) :
  exists p, minimax_exhaustive G rnd (S d) r e b = (Ok p, b).
Proof.
  cbn [minimax_exhaustive]. unfold bind at 1, get. destruct r.
  - destruct (max_loop_exh_ge _ (shuffle (rnd b) (legal_moves G b))
                NegInf MNone b (minimax_exhaustive_good d (negb true) e))
      as (v & q & E & _).
    exists (v, q); exact E.
  - destruct (min_loop_exh_le _ (shuffle (rnd b) (legal_moves G b))
                PosInf MNone b (minimax_exhaustive_good d (negb false) e))
      as (v & q & E & _).
    exists (v, q); exact E.
Qed.

End Exhaustive.

Section AlphaBeta.
Context {Move : Type} (G : Game Move).
Variable rnd : @board Move -> nat -> nat.

Lemma max_loop_failsoft c ce alpha0 beta (ms : list Move) alpha bs vs bm vm
    (b : board) :
  good_child c -> good_exh ce ->
  (forall a (x : Move) (b' : board) ri pi vi qi,
     ext_ltb a beta = true ->
     c a beta (x :: b') = (Ok (ri, pi), x :: b') ->
     ce (x :: b') = (Ok (vi, qi), x :: b') -> failsoft a beta vi ri) ->
  ext_ltb alpha beta = true -> max_inv alpha0 alpha bs vs ->
  exists r p v q, max_loop c beta ms alpha bs bm b = (Ok (r, p), b) /\
    max_loop_exh ce ms vs vm b = (Ok (v, q), b) /\ failsoft alpha0 beta v r.
Proof.
  intros Hg Hge Hch. revert alpha bs vs bm vm.
  induction ms as [|x rest IH]; intros alpha bs vs bm vm Hab Hinv.
  - exists bs, bm, vs, vm. split; [reflexivity|]. split; [reflexivity|].
    eapply max_inv_done; eassumption.
  - destruct (Hg alpha beta x b) as [[ri pi] Hp].
    destruct (Hge x b) as [[vi qi] Hq].
    pose proof (Hch _ _ _ _ _ _ _ Hab Hp Hq) as Hf.
    rewrite (max_loop_step _ _ _ _ _ _ _ _ _ Hp).
    rewrite (max_loop_exh_step _ _ _ _ _ _ _ Hq).
    cbv zeta. simpl fst.
    destruct (ext_leb beta (py_max alpha (py_max bs ri))) eqn:Hc.
    + destruct (max_inv_cut _ _ _ _ _ _ _ Hab Hinv Hf Hc) as [H1 H2].
      destruct (max_loop_exh_ge ce rest (py_max vs vi)
                  (if ext_eqb vi (py_max vs vi) then MMove x else vm) b Hge)
        as (v & q & E & Hv).
      do 4 eexists. split; [reflexivity|]. split; [exact E|].
      apply failsoft_high; [eapply max_inv_alpha0; eassumption | exact H1 |].
      eapply ext_leb_trans; eassumption.
    + destruct (max_inv_step _ _ _ _ _ _ _ Hab Hinv Hf Hc) as [Hab' Hinv'].
      exact (IH _ _ _ _ _ Hab' Hinv').
Qed.

Lemma min_loop_failsoft c ce alpha beta0 (ms : list Move) beta bs vs bm vm
    (b : board) :
  good_child c -> good_exh ce ->
  (forall bt (x : Move) (b' : board) ri pi vi qi,
     ext_ltb alpha bt = true ->
     c alpha bt (x :: b') = (Ok (ri, pi), x :: b') ->
     ce (x :: b') = (Ok (vi, qi), x :: b') -> failsoft alpha bt vi ri) ->
  ext_ltb alpha beta = true -> min_inv beta0 beta bs vs ->
  exists r p v q, min_loop c alpha ms beta bs bm b = (Ok (r, p), b) /\
    min_loop_exh ce ms vs vm b = (Ok (v, q), b) /\ failsoft alpha beta0 v r.
Proof.
  intros Hg Hge Hch. revert beta bs vs bm vm.
  induction ms as [|x rest IH]; intros beta bs vs bm vm Hab Hinv.
  - exists bs, bm, vs, vm. split; [reflexivity|]. split; [reflexivity|].
    eapply min_inv_done; eassumption.
  - destruct (Hg alpha beta x b) as [[ri pi] Hp].
    destruct (Hge x b) as [[vi qi] Hq].
    pose proof (Hch _ _ _ _ _ _ _ Hab Hp Hq) as Hf.
    rewrite (min_loop_step _ _ _ _ _ _ _ _ _ Hp).
    rewrite (min_loop_exh_step _ _ _ _ _ _ _ Hq).
    cbv zeta. simpl fst.
    destruct (ext_leb (py_min beta (py_min bs ri)) alpha) eqn:Hc.
    + destruct (min_inv_cut _ _ _ _ _ _ _ Hab Hinv Hf Hc) as [H1 H2].
      destruct (min_loop_exh_le ce rest (py_min vs vi)
                  (if ext_eqb vi (py_min vs vi) then MMove x else vm) b Hge)
        as (v & q & E & Hv).
      do 4 eexists. split; [reflexivity|]. split; [exact E|].
      apply failsoft_low; [eapply min_inv_beta0; eassumption | exact H1 |].
      eapply ext_leb_trans; eassumption.
    + destruct (min_inv_step _ _ _ _ _ _ _ Hab Hinv Hf Hc) as [Hab' Hinv'].
      exact (IH _ _ _ _ _ Hab' Hinv').
Qed.

(** Fail-soft alpha-beta: searched in a window [alpha < beta], [minimax]
    returns the exhaustive score when it lies inside the window, and a bound
    on the same side of the window as the exhaustive score otherwise. *)
Lemma minimax_failsoft d r e :
  forall alpha beta (b : board) ri pi vi qi,
  ext_ltb alpha beta = true ->
  fst (minimax G rnd d alpha beta r e b) = Ok (ri, pi) ->
  fst (minimax_exhaustive G rnd d r e b) = Ok (vi, qi) ->
  failsoft alpha beta vi ri.
Proof.
  revert r. induction d as [|d IH]; intros r alpha beta b ri pi vi qi Hab H1 H2.
  - cbn [minimax minimax_exhaustive] in H1, H2. rewrite H2 in H1.
    injection H1 as -> ->. apply failsoft_exact, Hab.
  - cbn [minimax minimax_exhaustive] in H1, H2.
    unfold bind at 1, get in H1. unfold bind at 1, get in H2.
    destruct r.
    + destruct (max_loop_failsoft (fun a bt => minimax G rnd d a bt (negb true) e)
                  (minimax_exhaustive G rnd d (negb true) e) alpha beta
                  (shuffle (rnd b) (legal_moves G b)) alpha NegInf NegInf MNone
                  MNone b (minimax_good G rnd d (negb true) e)
                  (minimax_exhaustive_good G rnd d (negb true) e))
        as (r' & p' & v' & q' & E1 & E2 & F).
      * intros a x b' ri' pi' vi' qi' Ha Hc Hce.
        eapply (IH (negb true) a beta (x :: b')); [exact Ha | | ].
        -- rewrite Hc; reflexivity.
        -- rewrite Hce; reflexivity.
      * exact Hab.
      * apply max_inv_init.
      * rewrite E1 in H1. rewrite E2 in H2. simpl in H1, H2.
        injection H1 as -> ->. injection H2 as -> ->. exact F.
    + destruct (min_loop_failsoft (fun a bt => minimax G rnd d a bt (negb false) e)
                  (minimax_exhaustive G rnd d (negb false) e) alpha beta
                  (shuffle (rnd b) (legal_moves G b)) beta PosInf PosInf MNone
                  MNone b (minimax_good G rnd d (negb false) e)
                  (minimax_exhaustive_good G rnd d (negb false) e))
        as (r' & p' & v' & q' & E1 & E2 & F).
      * intros bt x b' ri' pi' vi' qi' Ha Hc Hce.
        eapply (IH (negb false) alpha bt (x :: b')); [exact Ha | | ].
        -- rewrite Hc; reflexivity.
        -- rewrite Hce; reflexivity.
      * exact Hab.
      * apply min_inv_init.
      * rewrite E1 in H1. rewrite E2 in H2. simpl in H1, H2.
        injection H1 as -> ->. injection H2 as -> ->. exact F.
Qed.

(** C1 (amended): searched with the full window [alpha = -inf],
    [beta = +inf], [minimax] returns the score of the exhaustive search
    without pruning, for every position, depth, role, evaluator and move
    order (both searches raise the same exception where they fail). *)
Theorem minimax_full_window_exact (d : nat) (is_maximizing : bool)
    (e : evaluator) (b : board) :
  match fst (minimax G rnd d NegInf PosInf is_maximizing e b),
        fst (minimax_exhaustive G rnd d is_maximizing e b) with
  | Ok (s, _), Ok (v, _) => s = v
  | Err x, Err y => x = y
  | _, _ => False
  end.
Proof.
  destruct d as [|d].
  - cbn [minimax minimax_exhaustive].
    destruct (fst (leaf G e b)) as [[s m]|x]; reflexivity.
  - destruct (minimax_ok_deep G rnd d NegInf PosInf is_maximizing e b)
      as [[s m] E1].
    destruct (minimax_exhaustive_ok_deep G rnd d is_maximizing e b)
      as [[v q] E2].
    rewrite E1, E2. simpl.
    apply failsoft_full_window.
    apply (minimax_failsoft (S d) is_maximizing e NegInf PosInf b s m v q).
    + reflexivity.
    + rewrite E1; reflexivity.
    + rewrite E2; reflexivity.
Qed.

End AlphaBeta.

(** ** Concrete runs *)

(** C2: at depth 0 the branch for a game won by Black ([board.result() ==
    "0-1"], line 30) returns the method [board.peek] itself, while the branch
    for a game won by White (line 28) returns the value [board.peek()]. *)
Theorem leaf_black_win_returns_accessor :
  minimax toy fixed_order 0 NegInf PosInf true toy_eval [2; 2]
  = (Ok (NegInf, MPeekAccessor), [2; 2]) /\
  minimax toy fixed_order 0 NegInf PosInf true toy_eval [1; 1]
  = (Ok (PosInf, MMove 1), [1; 1]).
Proof. split; reflexivity. Qed.

(** C1: with the root bounds White uses in [play_game],
    [(alpha, beta) = (+inf, -inf)], the pruned search scores the starting
    position [+inf] where the exhaustive search scores it [-3]. *)
Lemma alpha_beta_inverted_window_differs :
  fst (minimax toy fixed_order 2 PosInf NegInf true toy_eval [])
  = Ok (PosInf, MMove 1) /\
  fst (minimax_exhaustive toy fixed_order 2 true toy_eval [])
  = Ok (Fin (-3), MMove 1).
Proof. split; reflexivity. Qed.

(** C5: a root position won by White with an empty move stack makes
    [board.peek()] raise [IndexError] at depth 0 instead of returning
    [+inf]. *)
Lemma depth0_white_win_empty_stack_raises :
  minimax mated_root fixed_order 0 NegInf PosInf true toy_eval []
  = (Err IndexError, []).
Proof. reflexivity. Qed.

Lemma minimax_depth0_eval_witness :
  result toy [1; 2] <> WhiteWins /\ result toy [1; 2] <> BlackWins /\
  minimax toy fixed_order 0 NegInf PosInf true toy_eval [1; 2]
  = (Ok (Fin (- toy_eval [1; 2]), MMove 1), [1; 2]).
Proof.
  split; [discriminate|]. split; [discriminate|].
  apply (minimax_depth0_eval toy fixed_order NegInf PosInf true toy_eval 1 [2]);
    discriminate.
Defined.

Lemma minimax_depth0_terminal_witness :
  result toy [1; 1] = WhiteWins /\
  fst (minimax toy fixed_order 0 NegInf PosInf false toy_eval [1; 1])
  = Ok (PosInf, MMove 1) /\
  result toy [2; 2] = BlackWins /\
  (exists mv, fst (minimax toy fixed_order 0 NegInf PosInf false toy_eval [2; 2])
              = Ok (NegInf, mv)).
Proof.
  split; [reflexivity|]. split.
  - apply (proj1 (minimax_depth0_terminal toy fixed_order NegInf PosInf false
                    toy_eval) 1 [1]); reflexivity.
  - split; [reflexivity|].
    apply (proj2 (minimax_depth0_terminal toy fixed_order NegInf PosInf false
                    toy_eval) [2; 2]); reflexivity.
Defined.

Lemma minimax_tie_last_witness :
  legal_moves toy [] <> [] /\
  (exists s m pre post,
     fst (minimax toy fixed_order 2 NegInf PosInf true toy_eval [])
     = Ok (s, MMove m) /\
     max_trace (fun a bt => minimax toy fixed_order 1 a bt false toy_eval) PosInf
               (shuffle (fixed_order []) (legal_moves toy [])) NegInf NegInf []
     = pre ++ (m, s) :: post /\
     Forall (fun p => ext_leb (snd p) s = true) pre /\
     Forall (fun p => ext_ltb (snd p) s = true) post).
Proof.
  split; [discriminate|].
  apply (minimax_tie_last toy fixed_order 1 NegInf PosInf toy_eval []).
  discriminate.
Defined.

Lemma minimax_no_moves_witness :
  legal_moves toy [1; 1] = [] /\
  minimax toy fixed_order 3 NegInf PosInf false toy_eval [1; 1]
  = (Ok (PosInf, MNone), [1; 1]).
Proof.
  split; [reflexivity|].
  apply (minimax_no_moves toy fixed_order 2 NegInf PosInf false toy_eval [1; 1]).
  reflexivity.
Defined.

Lemma minimax_returns_legal_move_witness :
  legal_moves toy [] <> [] /\
  exists s m, minimax toy fixed_order 2 PosInf NegInf true toy_eval []
              = (Ok (s, MMove m), []) /\ In m (legal_moves toy []).
Proof.
  split; [discriminate|].
  apply (minimax_returns_legal_move toy fixed_order 1 PosInf NegInf true toy_eval []).
  discriminate.
Defined.

Lemma minimax_inverted_window_first_move_witness :
  ext_leb NegInf PosInf = true /\
  shuffle (fixed_order []) (legal_moves toy []) = [1; 2] /\
  minimax toy fixed_order 2 PosInf NegInf true toy_eval []
  = (match fst (minimax toy fixed_order 1 PosInf NegInf false toy_eval [1]) with
     | Ok (s, _) => Ok (s, MMove 1)
     | Err err => Err err
     end, []).
Proof.
  split; [reflexivity|]. split; [reflexivity|].
  apply (proj1 (minimax_inverted_window_first_move toy fixed_order)
           1 PosInf NegInf true toy_eval [] 1 [2]); reflexivity.
Defined.

Lemma play_loop_root_seeding_witness :
  is_game_over toy [] = false /\ turn toy [] = White /\
  fst (minimax toy fixed_order 2 PosInf NegInf true toy_eval [])
  = Ok (PosInf, MMove 1) /\
  play_loop toy toy_from_occupied toy_eval 2 toy_eval 2 (fun _ => fixed_order) 1 0 []
  = play_loop toy toy_from_occupied toy_eval 2 toy_eval 2 (fun _ => fixed_order) 0 1 [1].
Proof.
  split; [reflexivity|]. split; [reflexivity|]. split; [reflexivity|].
  rewrite (proj1 (play_loop_root_seeding toy toy_from_occupied toy_eval 2
                    toy_eval 2 (fun _ => fixed_order) 0 0 [] eq_refl)
             eq_refl PosInf (MMove 1)); reflexivity.
Defined.

(** * Further properties of the search, the driver and the evaluators *)

(** ** [random.shuffle] returns a permutation of its list *)

Section ShufflePerm.
Context {A : Type}.

Lemma list_set_app (l1 l2 : list A) x v :
  list_set (l1 ++ x :: l2) (length l1) v = l1 ++ v :: l2.
Proof.
  induction l1 as [|h t IH]; simpl; [reflexivity | rewrite IH; reflexivity].
Qed.

Lemma list_set_perm (l : list A) i x v :
  nth_error l i = Some x -> Permutation (x :: list_set l i v) (v :: l).
Proof.
  intros Hx. destruct (nth_error_split l i Hx) as (l1 & l2 & -> & <-).
  rewrite list_set_app.
  transitivity (x :: v :: l1 ++ l2).
  - apply perm_skip. symmetry. apply Permutation_middle.
  - transitivity (v :: x :: l1 ++ l2); [apply perm_swap|].
    apply perm_skip, Permutation_middle.
Qed.

Lemma nth_error_list_set_eq (l : list A) i x v :
  nth_error l i = Some x -> nth_error (list_set l i v) i = Some v.
Proof.
  revert i. induction l as [|h t IH]; intros [|i] H; simpl in *;
    try discriminate; auto.
Qed.

Lemma nth_error_list_set_neq (l : list A) i j v :
  i <> j -> nth_error (list_set l i v) j = nth_error l j.
Proof.
  revert i j. induction l as [|h t IH]; intros [|i] [|j] H; simpl;
    try reflexivity; try congruence.
  apply IH. congruence.
Qed.

Lemma swap_perm (l : list A) i j : Permutation (swap l i j) l.
Proof.
  unfold swap.
  destruct (nth_error l i) as [xi|] eqn:Hi; [|reflexivity].
  destruct (nth_error l j) as [xj|] eqn:Hj; [|reflexivity].
  assert (Hj' : nth_error (list_set l i xj) j = Some xj).
  { destruct (Nat.eq_dec i j) as [<-|Hne].
    - rewrite Hi in Hj. injection Hj as <-.
      apply (nth_error_list_set_eq _ _ _ _ Hi).
    - rewrite (nth_error_list_set_neq _ _ _ _ Hne). exact Hj. }
  apply Permutation_cons_inv with xj.
  transitivity (xi :: list_set l i xj).
  - apply (list_set_perm _ _ _ _ Hj').
  - apply (list_set_perm _ _ _ _ Hi).
Qed.

Lemma shuffle_loop_perm draw k (l : list A) :
  Permutation (shuffle_loop draw k l) l.
Proof.
  revert l. induction k as [|k IH]; intros l; simpl; [reflexivity|].
  etransitivity; [apply IH | apply swap_perm].
Qed.

(** [random.shuffle] only reorders the list: whatever numbers are drawn,
    the result is a permutation of its input. *)
Theorem shuffle_permutation (draw : nat -> nat) (l : list A) :
  Permutation (shuffle draw l) l.
Proof.
  apply shuffle_loop_perm.
Qed.

Lemma shuffle_perm_helper draw (l : list A) : Permutation (shuffle draw l) l.
Proof.
  apply shuffle_loop_perm.
Qed.

End ShufflePerm.

(** ** With the full window the score does not depend on the move order *)

Lemma fold_left_perm {B C : Type} (f : B -> C -> B) :
  (forall a x y, f (f a x) y = f (f a y) x) ->
  forall l1 l2, Permutation l1 l2 -> forall a, fold_left f l1 a = fold_left f l2 a.
Proof.
  intros Hf l1 l2 P. induction P as [|x l1 l2 P IH|x y l|l1 l2 l3 P1 IH1 P2 IH2];
    intros a; simpl.
  - reflexivity.
  - apply IH.
  - rewrite Hf. reflexivity.
  - rewrite IH1. apply IH2.
Qed.

Lemma py_max_right_comm (a x y : ext) :
  py_max (py_max a x) y = py_max (py_max a y) x.
Proof. ext_crush; ext_crush. Qed.

Lemma py_min_right_comm (a x y : ext) :
  py_min (py_min a x) y = py_min (py_min a y) x.
Proof. ext_crush; ext_crush. Qed.

Section MoveOrder.
Context {Move : Type} (G : Game Move).

Lemma max_loop_exh_fold child (f : Move -> ext) (ms : list Move) bs bm
    (b : board) :
  (forall x, exists q, child (x :: b) = (Ok (f x, q), x :: b)) ->
  exists q, max_loop_exh child ms bs bm b
            = (Ok (fold_left py_max (map f ms) bs, q), b).
Proof.
  intros Hc. revert bs bm.
  induction ms as [|x rest IH]; intros bs bm.
  - exists bm. reflexivity.
  - destruct (Hc x) as [q Hq].
    rewrite (max_loop_exh_step _ _ _ _ _ _ _ Hq). apply IH.
Qed.

Lemma min_loop_exh_fold child (f : Move -> ext) (ms : list Move) bs bm
    (b : board) :
  (forall x, exists q, child (x :: b) = (Ok (f x, q), x :: b)) ->
  exists q, min_loop_exh child ms bs bm b
            = (Ok (fold_left py_min (map f ms) bs, q), b).
Proof.
  intros Hc. revert bs bm.
  induction ms as [|x rest IH]; intros bs bm.
  - exists bm. reflexivity.
  - destruct (Hc x) as [q Hq].
    rewrite (min_loop_exh_step _ _ _ _ _ _ _ Hq). apply IH.
Qed.

(** The score of the exhaustive search ([-inf] where it raises). *)
Definition exh_score rnd d r e (b : board) : ext :=
  match fst (minimax_exhaustive G rnd d r e b) with
  | Ok (v, _) => v
  | Err _ => NegInf
  end.

Lemma exh_score_child rnd d r e (x : Move) (b : board) :
  exists q, minimax_exhaustive G rnd d r e (x :: b)
            = (Ok (exh_score rnd d r e (x :: b), q), x :: b).
Proof.
  destruct (minimax_exhaustive_good G rnd d r e x b) as [[v q] E].
  exists q. unfold exh_score. rewrite E. reflexivity.
Qed.

Lemma exh_score_order rnd1 rnd2 d r e (b : board) :
  exh_score rnd1 d r e b = exh_score rnd2 d r e b.
Proof.
  revert r b. induction d as [|d IH]; intros r b; [reflexivity|].
  unfold exh_score. cbn [minimax_exhaustive]. unfold bind, get.
  assert (Hp : forall rnd,
             Permutation (shuffle (rnd b) (legal_moves G b)) (legal_moves G b))
    by (intros; apply shuffle_perm_helper).
  destruct r.
  - destruct (max_loop_exh_fold (minimax_exhaustive G rnd1 d (negb true) e)
                (fun x => exh_score rnd1 d (negb true) e (x :: b))
                (shuffle (rnd1 b) (legal_moves G b)) NegInf MNone b
                (fun x => exh_score_child rnd1 d (negb true) e x b)) as [q1 E1].
    destruct (max_loop_exh_fold (minimax_exhaustive G rnd2 d (negb true) e)
                (fun x => exh_score rnd2 d (negb true) e (x :: b))
                (shuffle (rnd2 b) (legal_moves G b)) NegInf MNone b
                (fun x => exh_score_child rnd2 d (negb true) e x b)) as [q2 E2].
    rewrite E1, E2. simpl.
    rewrite (map_ext (fun x => exh_score rnd1 d (negb true) e (x :: b))
                     (fun x => exh_score rnd2 d (negb true) e (x :: b)))
      by (intros; apply IH).
    apply fold_left_perm; [apply py_max_right_comm|].
    apply Permutation_map. rewrite (Hp rnd1). symmetry. apply Hp.
  - destruct (min_loop_exh_fold (minimax_exhaustive G rnd1 d (negb false) e)
                (fun x => exh_score rnd1 d (negb false) e (x :: b))
                (shuffle (rnd1 b) (legal_moves G b)) PosInf MNone b
                (fun x => exh_score_child rnd1 d (negb false) e x b)) as [q1 E1].
    destruct (min_loop_exh_fold (minimax_exhaustive G rnd2 d (negb false) e)
                (fun x => exh_score rnd2 d (negb false) e (x :: b))
                (shuffle (rnd2 b) (legal_moves G b)) PosInf MNone b
                (fun x => exh_score_child rnd2 d (negb false) e x b)) as [q2 E2].
    rewrite E1, E2. simpl.
    rewrite (map_ext (fun x => exh_score rnd1 d (negb false) e (x :: b))
                     (fun x => exh_score rnd2 d (negb false) e (x :: b)))
      by (intros; apply IH).
    apply fold_left_perm; [apply py_min_right_comm|].
    apply Permutation_map. rewrite (Hp rnd1). symmetry. apply Hp.
Qed.

(** At depth [S d], the full-window search returns the exhaustive score. *)
Lemma minimax_full_window_exh rnd d r e (b : board) s m :
  fst (minimax G rnd (S d) NegInf PosInf r e b) = Ok (s, m) ->
  s = exh_score rnd (S d) r e b.
Proof.
  intros H.
  destruct (minimax_exhaustive_ok_deep G rnd d r e b) as [[v q] E].
  unfold exh_score. rewrite E. simpl.
  apply failsoft_full_window.
  apply (minimax_failsoft G rnd (S d) r e NegInf PosInf b s m v q).
  - reflexivity.
  - exact H.
  - rewrite E; reflexivity.
Qed.

(** With the full window [alpha = -inf], [beta = +inf], the score [minimax]
    returns is the same for every outcome of [random.shuffle] at every
    node: the random move order can change the move returned, not the
    score (and where the search raises, it raises the same exception). *)
Theorem minimax_full_window_order_independent
    (rnd1 rnd2 : @board Move -> nat -> nat) (d : nat) (is_maximizing : bool)
    (e : evaluator) (b : board) :
  match fst (minimax G rnd1 d NegInf PosInf is_maximizing e b),
        fst (minimax G rnd2 d NegInf PosInf is_maximizing e b) with
  | Ok (s1, _), Ok (s2, _) => s1 = s2
  | Err x, Err y => x = y
  | _, _ => False
  end.
Proof.
  destruct d as [|d].
  - cbn [minimax]. destruct (fst (leaf G e b)) as [[s m]|x]; reflexivity.
  - destruct (minimax_ok_deep G rnd1 d NegInf PosInf is_maximizing e b)
      as [[s1 m1] E1].
    destruct (minimax_ok_deep G rnd2 d NegInf PosInf is_maximizing e b)
      as [[s2 m2] E2].
    rewrite E1, E2. simpl.
    rewrite (minimax_full_window_exh rnd1 d is_maximizing e b s1 m1)
      by (rewrite E1; reflexivity).
    rewrite (minimax_full_window_exh rnd2 d is_maximizing e b s2 m2)
      by (rewrite E2; reflexivity).
    apply exh_score_order.
Qed.

End MoveOrder.

(** ** When [minimax] raises *)

Section Raising.
Context {Move : Type} (G : Game Move).
Variable rnd : @board Move -> nat -> nat.

(** [minimax] raises an exception exactly when it is called at depth 0 on
    a board with an empty move stack whose result is not ["0-1"]; the
    exception is then the [IndexError] of [board.peek()].  At any depth
    above 0 it never raises. *)
Theorem minimax_raises_iff (d : nat) (alpha beta : ext) (is_maximizing : bool)
    (e : evaluator) (b : board) (err : exn) :
  fst (minimax G rnd d alpha beta is_maximizing e b) = Err err <->
  d = 0 /\ b = [] /\ result G [] <> BlackWins /\ err = IndexError.
Proof.
  destruct d as [|d].
  - cbn [minimax]. unfold leaf, bind, get, peek, ret.
    destruct b as [|m b]; destruct (result G _) eqn:Hr; simpl;
      split; intros H;
      try (injection H as <-); try discriminate;
      try (destruct H as (_ & Hb & Hr' & ->));
      try discriminate; try congruence; intuition congruence.
  - destruct (minimax_ok_deep G rnd d alpha beta is_maximizing e b) as [p E].
    rewrite E. simpl. split; [discriminate|]. intros (H & _). discriminate.
Qed.

End Raising.

(** ** A player searching at depth 0 *)

Section DepthZero.
Context {Move : Type} (G : Game Move).
Variable from_square_occupied : @board Move -> Move -> bool.
Variables (white_eval : evaluator (Move := Move)) (white_depth : nat)
          (black_eval : evaluator (Move := Move)) (black_depth : nat).
Variable rnd : nat -> @board Move -> nat -> nat.

(** In [play_game], a side searching at depth 0 on a position that is not
    over and not won by Black does not choose a move: [minimax] hands back
    the last move played, [m], and [board.push] tries to play it again.
    From the initial board, whose move stack is empty, [board.peek()]
    raises [IndexError]; otherwise the push raises [AssertionError] unless
    a piece stands on the from-square of [m] (in chess the piece that made
    [m] has just left that square). *)
Theorem play_loop_depth0_replays (fuel k : nat) (b : board) :
  is_game_over G b = false -> result G b <> BlackWins ->
  (turn G b = White /\ white_depth = 0) \/ (turn G b = Black /\ black_depth = 0) ->
  play_loop G from_square_occupied white_eval white_depth black_eval
            black_depth rnd (S fuel) k b
  = match b with
    | [] => (Err IndexError, [])
    | m :: _ =>
        if from_square_occupied b m
        then play_loop G from_square_occupied white_eval white_depth
                       black_eval black_depth rnd fuel (S k) (m :: b)
        else (Err AssertionError, b)
    end.
Proof.
  intros Hover Hr Hside.
  cbn [play_loop]. unfold bind at 1, get. rewrite Hover.
  destruct Hside as [[Ht Hd] | [Ht Hd]]; rewrite Ht, Hd; cbn [minimax];
    unfold bind at 1, leaf, bind at 1, get;
    destruct (result G b) eqn:E; try congruence;
    destruct b as [|m b']; try reflexivity;
    cbv beta iota zeta delta [push_result bind get push raise peek ret snd fst];
    destruct (from_square_occupied (m :: b') m); reflexivity.
Qed.

End DepthZero.

(** ** [tally_score] *)

Section Tally.
Local Open Scope Z_scope.

Lemma game_points_result (o : outcome) :
  game_points (result_str o) =
  match o with
  | WhiteWins => (PyInt 1, PyInt 0)
  | BlackWins => (PyInt 0, PyInt 1)
  | _ => (PyFloat2 1, PyFloat2 1)
  end.
Proof. destruct o; reflexivity. Qed.

Lemma py_twice_add (a x : pynum) : py_twice (py_add a x) = py_twice a + py_twice x.
Proof. destruct a, x; unfold py_add, py_twice; lia. Qed.

Lemma tally_fold_total (os : list outcome) (w bl : pynum) :
  let acc := fold_left (fun acc r =>
               let '(white_wins, black_wins) := acc in
               let '(white_score, black_score) := game_points r in
               (py_add white_wins white_score, py_add black_wins black_score))
             (map result_str os) (w, bl) in
  py_twice (fst acc) + py_twice (snd acc)
  = py_twice w + py_twice bl + 2 * Z.of_nat (length os).
Proof.
  revert w bl. induction os as [|o os IH]; intros w bl; cbn [fold_left map].
  - cbn [fst snd length]. lia.
  - rewrite game_points_result. cbv zeta in IH.
    destruct o; rewrite IH, !py_twice_add; cbn [py_twice length];
      rewrite Nat2Z.inj_succ; lia.
Qed.

(** Every game of [results] gives one point in all to the two sides (a win
    [1 - 0] or [0 - 1], or half a point each for a draw or an unfinished
    game): White's and Black's totals add up to the number of games. *)
Theorem tally_points_total (os : list outcome) :
  py_twice (fst (tally_points (map result_str os)))
  + py_twice (snd (tally_points (map result_str os)))
  = 2 * Z.of_nat (length os).
Proof.
  pose proof (tally_fold_total os (PyInt 0) (PyInt 0)) as H.
  cbv zeta in H. unfold tally_points. rewrite H. simpl. lia.
Qed.

Definition is_white_win (o : outcome) : bool :=
  match o with WhiteWins => true | _ => false end.

Definition is_black_win (o : outcome) : bool :=
  match o with BlackWins => true | _ => false end.

Lemma tally_fold_decisive (os : list outcome) (w bl : Z) :
  Forall (fun o => o = WhiteWins \/ o = BlackWins) os ->
  fold_left (fun acc r =>
               let '(white_wins, black_wins) := acc in
               let '(white_score, black_score) := game_points r in
               (py_add white_wins white_score, py_add black_wins black_score))
            (map result_str os) (PyInt w, PyInt bl)
  = (PyInt (w + Z.of_nat (length (filter is_white_win os))),
     PyInt (bl + Z.of_nat (length (filter is_black_win os)))).
Proof.
  revert w bl. induction os as [|o os IH]; intros w bl Hd; simpl.
  - f_equal; f_equal; lia.
  - inversion Hd as [|? ? Ho Hrest]; subst.
    destruct Ho as [-> | ->]; simpl; rewrite IH by exact Hrest;
      f_equal; f_equal; lia.
Qed.

(** When every game is decisive, the totals stay Python [int]s and the
    string shows the number of White wins and of Black wins, as in
    ["2 - 0"] (no [".0"]). *)
Theorem tally_score_decisive (os : list outcome) :
  Forall (fun o => o = WhiteWins \/ o = BlackWins) os ->
  tally_score (map result_str os)
  = str_int (Z.of_nat (length (filter is_white_win os)))
    ++ [" "; "-"; " "]%char
    ++ str_int (Z.of_nat (length (filter is_black_win os))).
Proof.
  intros Hd. unfold tally_score, tally_points.
  rewrite (tally_fold_decisive os 0 0 Hd). reflexivity.
Qed.

(** The outcome with an unfinished game counted as a draw. *)
Definition unfinished_as_draw (o : outcome) : outcome :=
  match o with Ongoing => Drawn | _ => o end.

(** An unfinished game (result ["*"]) makes [int] raise like a draw
    (["1/2-1/2"]) does, so [tally_score] counts it as a draw. *)
Theorem tally_score_unfinished_as_draw (os : list outcome) :
  tally_score (map result_str os)
  = tally_score (map result_str (map unfinished_as_draw os)).
Proof.
  unfold tally_score, tally_points.
  generalize (PyInt 0, PyInt 0).
  induction os as [|o os IH]; intros acc; simpl; [reflexivity|].
  rewrite !game_points_result. destruct o; apply IH.
Qed.

End Tally.

(** ** [main] *)

(** [main] builds the nine combinations of a depth in [2, 4, 6] and an
    evaluator, each once, and plays two games for every ordered pair of
    distinct combinations (the first with White), and no other game. *)
Theorem main_round_robin :
  NoDup combos /\ length combos = 9%nat /\
  forall i j : nat,
    length (filter (fun g => Nat.eqb (fst g) i && Nat.eqb (snd g) j) main_games)
    = if Nat.ltb i 9 && Nat.ltb j 9 && negb (Nat.eqb i j) then 2%nat else 0%nat.
Proof.
  split; [|split; [reflexivity|]].
  - vm_compute. repeat constructor; simpl; intuition discriminate.
  - intros i j.
    do 9 (destruct i as [|i];
          [do 9 (destruct j as [|j]; [vm_compute; reflexivity|]);
           vm_compute; reflexivity|]).
    do 9 (destruct j as [|j]; [vm_compute; reflexivity|]).
    vm_compute. reflexivity.
Qed.

(** ** Evaluation functions *)

Section EvalFacts.
Local Open Scope Z_scope.

(** [piece_to_pts] gives a piece its standard value whatever its colour
    ([lower()] folds White's upper-case symbols), and its final
    [return 0] is never reached. *)
Theorem piece_to_pts_values (p : piece) :
  piece_to_pts p =
  match piece_type_of p with
  | Pawn => 1
  | Knight => 3
  | Bishop => 3
  | Rook => 5
  | Queen => 9
  | King => 1
  end.
Proof. destruct p as [[] []]; reflexivity. Qed.

Lemma piece_to_pts_color (t : piece_type) (c : bool) :
  piece_to_pts (Piece t c) = piece_to_pts (Piece t (negb c)).
Proof. destruct t, c; reflexivity. Qed.

(** What a square adds to [eval_countpieces]. *)
Definition square_pts (o : option piece) : Z :=
  match o with
  | None => 0
  | Some p => if piece_color p then piece_to_pts p else - piece_to_pts p
  end.

Definition sum_Z (l : list Z) : Z := fold_right Z.add 0 l.

Lemma eval_fold_sum (board : position) (l : list Z) (s : Z) :
  fold_left (fun score square =>
               match board square with
               | None => score
               | Some piece =>
                   let piece_pts := piece_to_pts piece in
                   if piece_color piece then score + piece_pts
                   else score - piece_pts
               end) l s
  = s + sum_Z (map (fun square => square_pts (board square)) l).
Proof.
  revert s. induction l as [|sq l IH]; intros s; cbn [fold_left map sum_Z fold_right].
  - unfold sum_Z. simpl. lia.
  - rewrite IH. unfold sum_Z. cbn [fold_right].
    destruct (board sq) as [[t c]|]; cbn [square_pts piece_color];
      [destruct c|]; lia.
Qed.

Lemma eval_countpieces_sum (board : position) :
  eval_countpieces board = sum_Z (map (fun square => square_pts (board square)) SQUARES).
Proof. unfold eval_countpieces. rewrite eval_fold_sum. lia. Qed.

Lemma sum_Z_opp {B} (f : B -> Z) (l : list B) :
  sum_Z (map (fun x => - f x) l) = - sum_Z (map f l).
Proof. induction l as [|x l IH]; unfold sum_Z in *; simpl; [reflexivity|]. lia. Qed.

(** Reading the squares in the order [s xor 56] (ranks reversed) visits
    every square once. *)
Lemma sum_squares_flip (h : Z -> Z) :
  sum_Z (map (fun square => h (Z.lxor square 56)) SQUARES) = sum_Z (map h SQUARES).
Proof.
  rewrite <- (map_map (fun square => Z.lxor square 56) h).
  assert (E : map (fun square => Z.lxor square 56) SQUARES =
              [56; 57; 58; 59; 60; 61; 62; 63; 48; 49; 50; 51; 52; 53; 54; 55;
               40; 41; 42; 43; 44; 45; 46; 47; 32; 33; 34; 35; 36; 37; 38; 39;
               24; 25; 26; 27; 28; 29; 30; 31; 16; 17; 18; 19; 20; 21; 22; 23;
               8; 9; 10; 11; 12; 13; 14; 15; 0; 1; 2; 3; 4; 5; 6; 7])
    by (vm_compute; reflexivity).
  rewrite E.
  assert (E' : SQUARES =
              [0; 1; 2; 3; 4; 5; 6; 7; 8; 9; 10; 11; 12; 13; 14; 15;
               16; 17; 18; 19; 20; 21; 22; 23; 24; 25; 26; 27; 28; 29; 30; 31;
               32; 33; 34; 35; 36; 37; 38; 39; 40; 41; 42; 43; 44; 45; 46; 47;
               48; 49; 50; 51; 52; 53; 54; 55; 56; 57; 58; 59; 60; 61; 62; 63])
    by (vm_compute; reflexivity).
  rewrite E'. unfold sum_Z. cbn [map fold_right]. ring.
Qed.

Lemma square_pts_swap (board : position) (square : Z) :
  square_pts (swap_colors board square) = - square_pts (board square).
Proof.
  unfold swap_colors. destruct (board square) as [[t c]|]; [|reflexivity].
  destruct t, c; reflexivity.
Qed.

(** [eval_countpieces] is antisymmetric: swapping the colour of every piece
    negates the score, and so does the mirrored position (ranks reversed
    and colours swapped), the same position seen from the other side. *)
Theorem eval_countpieces_antisymmetric (board : position) :
  eval_countpieces (swap_colors board) = - eval_countpieces board /\
  eval_countpieces (mirror board) = - eval_countpieces board.
Proof.
  split.
  - rewrite !eval_countpieces_sum.
    rewrite (map_ext _ (fun square => - square_pts (board square)))
      by (intros; apply square_pts_swap).
    apply sum_Z_opp.
  - rewrite !eval_countpieces_sum. unfold mirror.
    rewrite (map_ext _ (fun square => - square_pts (board (Z.lxor square 56))))
      by (intros; apply square_pts_swap).
    rewrite sum_Z_opp.
    rewrite (sum_squares_flip (fun square => square_pts (board square))).
    reflexivity.
Qed.

Lemma lower_symbol_b (p : piece) :
  Ascii.eqb (ascii_lower (symbol p)) "b"%char = piece_type_eqb (piece_type_of p) Bishop.
Proof. destruct p as [[] []]; reflexivity. Qed.

Lemma count_bishops_fold (board : position) (l : list Z) (w bl : Z) :
  fold_left (fun '(white_bishops, black_bishops) square =>
               match board square with
               | None => (white_bishops, black_bishops)
               | Some piece =>
                   if Ascii.eqb (ascii_lower (symbol piece)) "b"%char
                      && piece_color piece
                   then (white_bishops + 1, black_bishops)
                   else if Ascii.eqb (ascii_lower (symbol piece)) "b"%char
                           && negb (piece_color piece)
                   then (white_bishops, black_bishops + 1)
                   else (white_bishops, black_bishops)
               end) l (w, bl)
  = (w + Z.of_nat (length (filter (fun square =>
                              match board square with
                              | Some p => piece_type_eqb (piece_type_of p) Bishop
                                          && Bool.eqb (piece_color p) true
                              | None => false
                              end) l)),
     bl + Z.of_nat (length (filter (fun square =>
                              match board square with
                              | Some p => piece_type_eqb (piece_type_of p) Bishop
                                          && Bool.eqb (piece_color p) false
                              | None => false
                              end) l))).
Proof.
  revert w bl. induction l as [|sq l IH]; intros w bl; cbn [fold_left filter].
  - cbn [length Z.of_nat]. f_equal; lia.
  - destruct (board sq) as [p|].
    + rewrite !lower_symbol_b. destruct p as [t c].
      destruct t, c; cbn [piece_type_of piece_color piece_type_eqb Bool.eqb
                          andb negb length]; rewrite IH;
        rewrite ?Nat2Z.inj_succ; f_equal; lia.
    + rewrite IH. reflexivity.
Qed.

Lemma count_bishops_spec (board : position) :
  count_bishops board = (count_pieces board Bishop true, count_pieces board Bishop false).
Proof.
  unfold count_bishops. rewrite count_bishops_fold. unfold count_pieces. f_equal; lia.
Qed.

(** [bishop_pair] scores [1] exactly when White has two bishops and Black
    fewer than two. *)
Theorem bishop_pair_white (board : position) :
  bishop_pair board = 1 <->
  count_pieces board Bishop true = 2 /\ count_pieces board Bishop false < 2.
Proof.
  unfold bishop_pair. rewrite count_bishops_spec.
  destruct (Z.eqb_spec (count_pieces board Bishop true) 2);
  destruct (Z.ltb_spec (count_pieces board Bishop false) 2);
  destruct (Z.eqb_spec (count_pieces board Bishop false) 2);
  destruct (Z.ltb_spec 2 (count_pieces board Bishop true));
  cbn [andb]; split; intros; lia.
Qed.

(** [bishop_pair] scores [-1] only when Black has two bishops and White
    more than two (line 176 tests [white_bishops > 2]): Black's bishop pair
    against White's one bishop or none scores [0], where White's pair
    against Black's one bishop scores [1]. *)
Theorem bishop_pair_black (board : position) :
  bishop_pair board = -1 <->
  count_pieces board Bishop false = 2 /\ count_pieces board Bishop true > 2.
Proof.
  unfold bishop_pair. rewrite count_bishops_spec.
  destruct (Z.eqb_spec (count_pieces board Bishop true) 2);
  destruct (Z.ltb_spec (count_pieces board Bishop false) 2);
  destruct (Z.eqb_spec (count_pieces board Bishop false) 2);
  destruct (Z.ltb_spec 2 (count_pieces board Bishop true));
  cbn [andb]; split; intros; lia.
Qed.

Lemma land_bit_zero (r k : Z) :
  0 <= k -> (Z.land r (Z.shiftl 1 k) =? 0) = negb (Z.testbit r k).
Proof.
  intros Hk. rewrite Z.shiftl_1_l.
  destruct (Z.testbit r k) eqn:Hb; cbn [negb].
  - apply Z.eqb_neq. intros H0.
    assert (Hk' : Z.testbit (Z.land r (2 ^ k)) k = true)
      by (rewrite Z.land_spec, Hb, Z.pow2_bits_true by lia; reflexivity).
    rewrite H0 in Hk'. rewrite Z.testbit_0_l in Hk'. discriminate.
  - apply Z.eqb_eq. apply Z.bits_inj_0. intros n.
    rewrite Z.land_spec.
    destruct (Z.eq_dec n k) as [->|Hn]; [rewrite Hb; reflexivity|].
    destruct (Z.ltb_spec n 0).
    + rewrite Z.testbit_neg_r by lia. reflexivity.
    + rewrite Z.pow2_bits_false by lia. apply andb_false_r.
Qed.

(** [has_castled] pairs White's and Black's rooks: it adds [0.4] when the
    castling rights of a1 and a8 are not both held and [0.4] when those of
    h1 and h8 are, so it returns exactly [0.0] when both pairs or neither
    are held (the initial position, or after all castling), [-0.8] and
    [0.8] otherwise. *)
Theorem has_castled_values (castling_rights : Z) :
  has_castled castling_rights =
  (if Z.testbit castling_rights 0 && Z.testbit castling_rights 56 then
     if Z.testbit castling_rights 7 && Z.testbit castling_rights 63
     then 0 else - 0.8
   else if Z.testbit castling_rights 7 && Z.testbit castling_rights 63
   then 0.8 else 0)%float.
Proof.
  unfold has_castled, BB_A1, BB_A8, BB_H1, BB_H8.
  rewrite !land_bit_zero by lia.
  destruct (Z.testbit castling_rights 0), (Z.testbit castling_rights 56),
           (Z.testbit castling_rights 7), (Z.testbit castling_rights 63);
    vm_compute; reflexivity.
Qed.

Lemma back_rank_squares :
  forallb (fun square => Bool.eqb (back_rank square) (square =? 56)) SQUARES = true.
Proof. vm_compute. reflexivity. Qed.

Lemma fold_left_ext_in {B C} (f g : B -> C -> B) (l : list C) (a : B) :
  (forall acc x, In x l -> f acc x = g acc x) -> fold_left f l a = fold_left g l a.
Proof.
  revert a. induction l as [|x l IH]; intros a H; simpl; [reflexivity|].
  rewrite H by (left; reflexivity). apply IH. intros acc y Hy. apply H. right; exact Hy.
Qed.

Lemma protect_king_with_ext (t1 t2 : Z -> bool) piece_at :
  (forall square, In square SQUARES -> t1 square = t2 square) ->
  protect_king_with t1 piece_at = protect_king_with t2 piece_at.
Proof.
  intros H. unfold protect_king_with.
  erewrite fold_left_ext_in; [reflexivity|].
  intros acc square Hin. cbv beta. rewrite (H square Hin). reflexivity.
Qed.

(** In [protect_king] the test [square/8 == 7 or square/8 == 8] divides as
    floats, so among the 64 squares it holds only for square 56 (a8): the
    [-3] of a black king on the last rank is given on a8 alone, whatever
    the board. *)
Theorem protect_king_back_rank_a8 (piece_at : Z -> res (option piece)) :
  protect_king piece_at = protect_king_with (fun square => square =? 56) piece_at.
Proof.
  unfold protect_king. apply protect_king_with_ext.
  intros square Hin.
  pose proof (proj1 (forallb_forall _ SQUARES) back_rank_squares square Hin) as H.
  apply Bool.eqb_prop in H. exact H.
Qed.

End EvalFacts.

(** ** Concrete instances *)

Lemma play_loop_depth0_replays_witness :
  is_game_over toy [1] = false /\ result toy [1] <> BlackWins /\
  turn toy [1] = Black /\
  play_loop toy toy_from_occupied toy_eval 2 toy_eval 0 (fun _ => fixed_order) 1 0 [1]
  = (Err AssertionError, [1]).
Proof.
  split; [reflexivity|]. split; [discriminate|]. split; [reflexivity|].
  rewrite (play_loop_depth0_replays toy toy_from_occupied toy_eval 2 toy_eval 0
             (fun _ => fixed_order) 0 0 [1]).
  - reflexivity.
  - reflexivity.
  - discriminate.
  - right. split; reflexivity.
Defined.

Lemma tally_score_decisive_witness :
  Forall (fun o => o = WhiteWins \/ o = BlackWins) [WhiteWins; BlackWins; WhiteWins] /\
  tally_score (map result_str [WhiteWins; BlackWins; WhiteWins])
  = ["2"; " "; "-"; " "; "1"]%char.
Proof.
  assert (H : Forall (fun o => o = WhiteWins \/ o = BlackWins)
                     [WhiteWins; BlackWins; WhiteWins]).
  { repeat (apply Forall_cons; [first [left; reflexivity | right; reflexivity]|]).
    apply Forall_nil. }
  split; [exact H|].
  rewrite (tally_score_decisive [WhiteWins; BlackWins; WhiteWins] H).
  reflexivity.
Defined.
